(** * The music recommendation engine of the player hook

    A shallow embedding of [MusicRecommendationEngine]
    (src/Frontend/src/hooks/usePlayer.tsx, lines 63-348; the copy in
    src/Frontend/src/lib/supabase.ts is the same class) and the properties of
    its taste profile, scorer, blender, strategy selector and profile
    export / import.

    Conventions of the embedding.
    - A JavaScript number is an exact rational ([Q]), written as in the
      source ([0.05], [1.5]) and kept in lowest terms by every operation, so
      that equal numbers are equal terms. Rounding, [NaN] and the infinities
      of binary64 are outside the model.
    - An optional field ([genre?: string], [listenDuration?: number]) is an
      [option]; [None] is JavaScript's [undefined].
    - A [Map<string, V>] is an association list in insertion order and a
      [Set<string>] a duplicate-free list in insertion order, as ECMAScript
      iterates them.
    - Song objects are held by reference: a [Heap] gives the object behind a
      reference, and an array of songs is a list of references.
    - The engine is a mutable object; each method takes the engine state
      [this] and returns the state it leaves behind.
    - [Date.now()] is an argument [now] of the methods that read the clock.
    - [JSON.parse] and [JSON.stringify] are parameters of the export and the
      import; [JsonText] gives a concrete pair for them. *)

From Stdlib Require Import String Ascii List Bool Arith ZArith QArith Qround.
From Stdlib Require Import Lia Lqa Permutation Sorted.
Import ListNotations.

Local Open Scope Q_scope.

(* ====================================================================== *)
(** ** JavaScript numbers and [Math] *)

Module Js.

Definition num := Q.

Definition add (a b : num) : num := Qred (a + b).
Definition sub (a b : num) : num := Qred (a - b).
Definition mul (a b : num) : num := Qred (a * b).
Definition div (a b : num) : num := Qred (a / b).

(** [a < b], [a > b], [a <= b] as JavaScript evaluates them on numbers. *)
Definition ltb (a b : num) : bool := negb (Qle_bool b a).
Definition gtb (a b : num) : bool := ltb b a.
Definition leb (a b : num) : bool := Qle_bool a b.

(** [a === b] on numbers. *)
Definition eqb (a b : num) : bool := Qeq_bool a b.

(** Truthiness of a number: every number but zero. *)
Definition truthy (a : num) : bool := negb (Qeq_bool a 0).

(** Truthiness of an optional number: [undefined] is falsy. *)
Definition truthy_opt (a : option num) : bool :=
  match a with
  | Some x => truthy x
  | None => false
  end.

(** [x || 0] for an optional number [x]. *)
Definition or_zero (a : option num) : num :=
  match a with
  | Some x => if truthy x then x else 0
  | None => 0
  end.

(** Truthiness of an optional string: [undefined] and the empty string are
    falsy. *)
Definition truthy_str (s : option string) : option string :=
  match s with
  | Some EmptyString => None
  | Some g => Some g
  | None => None
  end.

Definition Math_max (a b : num) : num := Qred (if Qle_bool a b then b else a).
Definition Math_min (a b : num) : num := Qred (if Qle_bool a b then a else b).

(** [Math.max(...xs, 1)]. *)
Definition Math_max_with_1 (xs : list num) : num :=
  fold_right Math_max 1 xs.

(** [Math.ceil] of a number, as an integer. *)
Definition Math_ceil (a : num) : Z := Qceiling a.

(** *** Arrays *)

(** [xs.slice(-n)]: the last [n] elements (all of them when there are fewer). *)
Definition slice_last {A} (n : nat) (xs : list A) : list A :=
  skipn (length xs - n) xs.

(** [xs.slice(0, n)] for an integer [n]: the first [n] elements; none when
    [n <= 0]. *)
Definition slice_first {A} (n : Z) (xs : list A) : list A :=
  firstn (Z.to_nat n) xs.

(** [xs.includes(x)] on an array of strings. *)
Definition includes (xs : list string) (x : string) : bool :=
  existsb (String.eqb x) xs.

(** [xs.sort(cmp)] for a comparator [cmp a b] that is negative when [a] goes
    first. ECMAScript's sort is stable; with a comparator that is a total
    preorder the stable sorted order is unique, and insertion from the right
    computes it. *)
Fixpoint sort_insert {A} (cmp : A -> A -> num) (x : A) (xs : list A) : list A :=
  match xs with
  | [] => [x]
  | y :: ys =>
      if Qle_bool (cmp x y) 0 then x :: y :: ys
      else y :: sort_insert cmp x ys
  end.

Definition sort {A} (cmp : A -> A -> num) (xs : list A) : list A :=
  fold_right (sort_insert cmp) [] xs.

(** *** [Map<string, V>], in insertion order *)

Definition Map (V : Type) := list (string * V).

Fixpoint Map_get {V} (m : Map V) (k : string) : option V :=
  match m with
  | [] => None
  | (k', v) :: m' => if String.eqb k k' then Some v else Map_get m' k
  end.

(** [m.set(k, v)]: an existing key keeps its position, a new key goes last. *)
Fixpoint Map_set {V} (m : Map V) (k : string) (v : V) : Map V :=
  match m with
  | [] => [(k, v)]
  | (k', v') :: m' =>
      if String.eqb k k' then (k', v) :: m'
      else (k', v') :: Map_set m' k v
  end.

Definition Map_entries {V} (m : Map V) : list (string * V) := m.
Definition Map_values {V} (m : Map V) : list V := List.map snd m.
Definition Map_keys {V} (m : Map V) : list string := List.map fst m.

(** [new Map(entries)]: the entries are set one after the other. *)
Definition Map_of_entries {V} (es : list (string * V)) : Map V :=
  fold_left (fun m e => Map_set m (fst e) (snd e)) es [].

(** *** [Set<string>], in insertion order *)

Definition StrSet := list string.

Definition Set_has (s : StrSet) (x : string) : bool := existsb (String.eqb x) s.

Definition Set_add (s : StrSet) (x : string) : StrSet :=
  if Set_has s x then s else s ++ [x].

Definition Set_delete (s : StrSet) (x : string) : StrSet :=
  filter (fun y => negb (String.eqb x y)) s.

Definition Set_size (s : StrSet) : nat := length s.

End Js.

Infix "+!" := Js.add (at level 50, left associativity).
Infix "-!" := Js.sub (at level 50, left associativity).
Infix "*!" := Js.mul (at level 40, left associativity).
Infix "/!" := Js.div (at level 40, left associativity).

(* ====================================================================== *)
(** ** The data model *)

Inductive Action := play | skip | replay | like | full_listen.

Definition Action_eqb (a b : Action) : bool :=
  match a, b with
  | play, play | skip, skip | replay, replay
  | like, like | full_listen, full_listen => true
  | _, _ => false
  end.

Module ListeningEvent.
Record t := mk {
  songId : string;
  artist : string;
  genre : option string;
  action : Action;
  timestamp : Z;
  listenDuration : option Js.num;
  songDuration : option Js.num
}.
End ListeningEvent.

Record UserTasteProfile := mkProfile {
  artistPreferences : Js.Map Js.num;
  genrePreferences : Js.Map Js.num;
  moodPreferences : Js.Map Js.num;
  recentlyPlayed : Js.StrSet;
  recentlySkipped : Js.StrSet;
  favoriteArtists : list string;
  discoveryOpenness : Js.num;
  lastUpdated : Z
}.

Definition with_artistPreferences (p : UserTasteProfile) (m : Js.Map Js.num) :=
  mkProfile m (genrePreferences p) (moodPreferences p) (recentlyPlayed p)
            (recentlySkipped p) (favoriteArtists p) (discoveryOpenness p)
            (lastUpdated p).

Definition with_genrePreferences (p : UserTasteProfile) (m : Js.Map Js.num) :=
  mkProfile (artistPreferences p) m (moodPreferences p) (recentlyPlayed p)
            (recentlySkipped p) (favoriteArtists p) (discoveryOpenness p)
            (lastUpdated p).

Definition with_recentlyPlayed (p : UserTasteProfile) (s : Js.StrSet) :=
  mkProfile (artistPreferences p) (genrePreferences p) (moodPreferences p) s
            (recentlySkipped p) (favoriteArtists p) (discoveryOpenness p)
            (lastUpdated p).

Definition with_recentlySkipped (p : UserTasteProfile) (s : Js.StrSet) :=
  mkProfile (artistPreferences p) (genrePreferences p) (moodPreferences p)
            (recentlyPlayed p) s (favoriteArtists p) (discoveryOpenness p)
            (lastUpdated p).

Definition with_favoriteArtists (p : UserTasteProfile) (l : list string) :=
  mkProfile (artistPreferences p) (genrePreferences p) (moodPreferences p)
            (recentlyPlayed p) (recentlySkipped p) l (discoveryOpenness p)
            (lastUpdated p).

Definition with_discoveryOpenness (p : UserTasteProfile) (d : Js.num) :=
  mkProfile (artistPreferences p) (genrePreferences p) (moodPreferences p)
            (recentlyPlayed p) (recentlySkipped p) (favoriteArtists p) d
            (lastUpdated p).

Definition with_lastUpdated (p : UserTasteProfile) (t : Z) :=
  mkProfile (artistPreferences p) (genrePreferences p) (moodPreferences p)
            (recentlyPlayed p) (recentlySkipped p) (favoriteArtists p)
            (discoveryOpenness p) t.

(** The engine object: its two mutable fields. *)
Record Engine := mkEngine {
  userProfile : UserTasteProfile;
  listeningHistory : list ListeningEvent.t
}.

Definition HISTORY_WINDOW : nat := 50.
Definition RECENT_PLAYED_WINDOW : nat := 20.

(* ====================================================================== *)
(** ** Construction and the event recorder *)

Definition initializeProfile (now : Z) : UserTasteProfile :=
  mkProfile [] [] [] [] [] [] 0.3 now.

(** [new MusicRecommendationEngine()]. *)
Definition new_engine (now : Z) : Engine :=
  mkEngine (initializeProfile now) [].

Definition is_skip (e : ListeningEvent.t) : bool :=
  Action_eqb (ListeningEvent.action e) skip.

(** The number of [skip] events among the last ten history entries. *)
Definition recentSkips (history : list ListeningEvent.t) : nat :=
  length (filter is_skip (Js.slice_last 10 history)).

(** [listenDuration && songDuration ? listenDuration / songDuration : 1]. *)
Definition completionRatio (event : ListeningEvent.t) : Js.num :=
  if Js.truthy_opt (ListeningEvent.listenDuration event)
     && Js.truthy_opt (ListeningEvent.songDuration event)
  then
    match ListeningEvent.listenDuration event,
          ListeningEvent.songDuration event with
    | Some l, Some s => l /! s
    | _, _ => 1
    end
  else 1.

(** The comparator of the favourites sort: [(a, b) => b[1] - a[1]]. *)
Definition by_score_desc (a b : string * Js.num) : Js.num := snd b -! snd a.

Definition updateTasteProfile (now : Z) (event : ListeningEvent.t)
    (this : Engine) : Engine :=
  let artist := ListeningEvent.artist event in
  let action := ListeningEvent.action event in
  let ratio := completionRatio event in
  let p0 := userProfile this in
  let currentArtistScore := Js.or_zero (Js.Map_get (artistPreferences p0) artist) in
  (* switch (action) *)
  let p1 :=
    match action with
    | full_listen =>
        with_artistPreferences p0
          (Js.Map_set (artistPreferences p0) artist (currentArtistScore +! 3))
    | like =>
        with_artistPreferences p0
          (Js.Map_set (artistPreferences p0) artist (currentArtistScore +! 5))
    | replay =>
        with_artistPreferences p0
          (Js.Map_set (artistPreferences p0) artist (currentArtistScore +! 4))
    | skip =>
        let penalty := if Js.ltb ratio 0.3 then -2 else -0.5 in
        let p := with_artistPreferences p0
          (Js.Map_set (artistPreferences p0) artist
             (Js.Math_max 0 (currentArtistScore +! penalty))) in
        with_recentlySkipped p
          (Js.Set_add (recentlySkipped p) (ListeningEvent.songId event))
    | play =>
        let credit := ratio *! 1.5 in
        with_artistPreferences p0
          (Js.Map_set (artistPreferences p0) artist (currentArtistScore +! credit))
    end in
  (* if (genre) *)
  let p2 :=
    match Js.truthy_str (ListeningEvent.genre event) with
    | Some genre =>
        let currentGenreScore := Js.or_zero (Js.Map_get (genrePreferences p1) genre) in
        let genreBoost :=
          if Action_eqb action skip then -1 else ratio *! 2 in
        with_genrePreferences p1
          (Js.Map_set (genrePreferences p1) genre
             (Js.Math_max 0 (currentGenreScore +! genreBoost)))
    | None => p1
    end in
  (* recentlyPlayed, capped at RECENT_PLAYED_WINDOW *)
  let p3 := with_recentlyPlayed p2
              (Js.Set_add (recentlyPlayed p2) (ListeningEvent.songId event)) in
  let p4 :=
    if Nat.ltb RECENT_PLAYED_WINDOW (Js.Set_size (recentlyPlayed p3)) then
      match recentlyPlayed p3 with
      | oldest :: _ =>
          with_recentlyPlayed p3 (Js.Set_delete (recentlyPlayed p3) oldest)
      | [] => p3
      end
    else p3 in
  (* favoriteArtists *)
  let p5 := with_favoriteArtists p4
              (List.map fst
                 (Js.slice_first 10
                    (Js.sort by_score_desc (Js.Map_entries (artistPreferences p4))))) in
  (* discoveryOpenness *)
  let skips := recentSkips (listeningHistory this) in
  let p6 :=
    if Nat.ltb 5 skips then
      with_discoveryOpenness p5
        (Js.Math_max 0.1 (discoveryOpenness p5 -! 0.05))
    else if Nat.ltb skips 2 then
      with_discoveryOpenness p5
        (Js.Math_min 0.5 (discoveryOpenness p5 +! 0.05))
    else p5 in
  mkEngine (with_lastUpdated p6 now) (listeningHistory this).

Definition recordListeningEvent (now : Z) (event : ListeningEvent.t)
    (this : Engine) : Engine :=
  let pushed := listeningHistory this ++ [event] in
  let history :=
    if Nat.ltb HISTORY_WINDOW (length pushed) then tl pushed else pushed in
  updateTasteProfile now event (mkEngine (userProfile this) history).

(** The engine states reached from a fresh engine by recording events that
    satisfy [P]. *)
Inductive reachable_with (P : ListeningEvent.t -> Prop) : Engine -> Prop :=
| reach_new : forall now, reachable_with P (new_engine now)
| reach_record : forall now event this,
    reachable_with P this -> P event ->
    reachable_with P (recordListeningEvent now event this).

(** The engine states reached from a fresh engine by recording events. *)
Definition reachable : Engine -> Prop := reachable_with (fun _ => True).

(* ====================================================================== *)
(** ** The candidate scorer *)

Module Song.
Record t := mk {
  id : string;
  title : string;
  artist : string;
  album : string;
  duration : Js.num;
  genre : option string;
  views : option Js.num
}.
End Song.

(** Songs are objects: an array of songs holds references, and
    [results.includes(s.song)] compares references. [objref] is the identity
    of a song object and a [Heap] gives the object behind each reference. *)
Definition objref := nat.
Definition Heap := objref -> Song.t.

Inductive TimeOfDay := morning | afternoon | evening | night.
Inductive Mood := energetic | chill | focus | melancholic | upbeat.

Record SessionContext := mkContext {
  currentSong : Song.t;
  queue : list Song.t;
  recentQueue : list Song.t;
  timeOfDay : TimeOfDay;
  skipCount : Z;
  repeatCount : Z;
  isShuffled : bool;
  sessionMood : option Mood
}.

Record Reasons := mkReasons {
  artistSimilarity : Js.num;
  genreSimilarity : Js.num;
  moodCompatibility : Js.num;
  noveltyBonus : Js.num;
  repetitionPenalty : Js.num;
  popularitySignal : Js.num
}.

Record ScoredCandidate := mkScored {
  song : objref;
  score : Js.num;
  reasons : Reasons
}.

Section Scorer.

Variable heap : Heap.
Variable this : Engine.

Let profile := userProfile this.

Definition calculateArtistSimilarity (candidate : Song.t)
    (context : SessionContext) : Js.num :=
  let candidateArtist := Song.artist candidate in
  let currentArtist := Song.artist (currentSong context) in
  if String.eqb candidateArtist currentArtist then 80
  else
    let artistScore :=
      Js.or_zero (Js.Map_get (artistPreferences profile) candidateArtist) in
    if Js.includes (favoriteArtists profile) candidateArtist then
      90 +! artistScore
    else
      let maxScore :=
        Js.Math_max_with_1 (Js.Map_values (artistPreferences profile)) in
      (artistScore /! maxScore) *! 70.

Definition calculateGenreSimilarity (candidate : Song.t)
    (context : SessionContext) : Js.num :=
  match Js.truthy_str (Song.genre candidate) with
  | None => 50
  | Some genre =>
      let genreScore :=
        Js.or_zero (Js.Map_get (genrePreferences profile) genre) in
      let maxScore :=
        Js.Math_max_with_1 (Js.Map_values (genrePreferences profile)) in
      (genreScore /! maxScore) *! 100
  end.

Definition calculateMoodCompatibility (candidate : Song.t)
    (context : SessionContext) : Js.num :=
  if (3 <? skipCount context)%Z then
    if Js.includes (favoriteArtists profile) (Song.artist candidate)
    then 90 else 40
  else if (0 <? repeatCount context)%Z then
    if String.eqb (Song.artist candidate) (Song.artist (currentSong context))
    then 95 else 60
  else 70.

Definition calculateNoveltyBonus (candidate : Song.t) : Js.num :=
  let artistScore :=
    Js.or_zero (Js.Map_get (artistPreferences profile) (Song.artist candidate)) in
  if Js.eqb artistScore 0 then discoveryOpenness profile *! 100
  else if Js.ltb artistScore 3 then discoveryOpenness profile *! 50
  else 10.

Definition calculateRepetitionPenalty (candidate : Song.t)
    (context : SessionContext) : Js.num :=
  if Js.Set_has (recentlyPlayed profile) (Song.id candidate) then -80
  else if Js.Set_has (recentlySkipped profile) (Song.id candidate) then -100
  else
    let recentArtists :=
      List.map Song.artist (Js.slice_last 3 (recentQueue context)) in
    if Js.includes recentArtists (Song.artist candidate) then -40
    else 0.

Definition calculatePopularitySignal (candidate : Song.t) : Js.num :=
  let views := Js.or_zero (Song.views candidate) in
  if Js.gtb views 10000000 then 20
  else if Js.gtb views 1000000 then 15
  else if Js.gtb views 100000 then 10
  else 5.

Definition scoreSong (candidate : objref) (context : SessionContext)
    : ScoredCandidate :=
  let c := heap candidate in
  let reasons := mkReasons
    (calculateArtistSimilarity c context)
    (calculateGenreSimilarity c context)
    (calculateMoodCompatibility c context)
    (calculateNoveltyBonus c)
    (calculateRepetitionPenalty c context)
    (calculatePopularitySignal c) in
  let score :=
    artistSimilarity reasons *! 0.30 +!
    genreSimilarity reasons *! 0.20 +!
    moodCompatibility reasons *! 0.25 +!
    noveltyBonus reasons *! 0.10 +!
    repetitionPenalty reasons *! 0.10 +!
    popularitySignal reasons *! 0.05 in
  mkScored candidate score reasons.

(* ==================================================================== *)
(** ** The recommender *)

(** The comparator of the candidate sort: [(a, b) => b.score - a.score]. *)
Definition by_total_desc (a b : ScoredCandidate) : Js.num := score b -! score a.

(** The predicate of the [familiar] filter. *)
Definition is_familiar (s : ScoredCandidate) : bool :=
  Js.includes (favoriteArtists profile) (Song.artist (heap (song s)))
  || Js.gtb (Js.or_zero (Js.Map_get (artistPreferences profile)
                           (Song.artist (heap (song s))))) 3.

(** The predicate of the [discovery] filter. *)
Definition is_discovery (s : ScoredCandidate) : bool :=
  negb (Js.includes (favoriteArtists profile) (Song.artist (heap (song s))))
  && Js.leb (Js.or_zero (Js.Map_get (artistPreferences profile)
                           (Song.artist (heap (song s))))) 3.

(** [results.includes(song)]: by reference. *)
Definition includes_ref (results : list objref) (r : objref) : bool :=
  existsb (Nat.eqb r) results.

Definition targetFamiliar (count : Z) : Z :=
  Js.Math_ceil (inject_Z count *! (1 -! discoveryOpenness profile)).

Definition targetDiscovery (count : Z) : Z := (count - targetFamiliar count)%Z.

(** [recommendNextSongs(candidates, context, count)] for an integer [count].
    Each of the two [for] loops pushes the elements of its bucket at the
    indices [i] below both the target and the bucket's length, which is the
    bucket's prefix of that many elements. *)
Definition recommendNextSongs (candidates : list objref)
    (context : SessionContext) (count : Z) : list objref :=
  let scored :=
    Js.sort by_total_desc (List.map (fun c => scoreSong c context) candidates) in
  let familiar := filter is_familiar scored in
  let discovery := filter is_discovery scored in
  let results1 :=
    List.map song (firstn (Z.to_nat (targetFamiliar count)) familiar) in
  let results2 :=
    results1 ++
    List.map song (firstn (Z.to_nat (targetDiscovery count)) discovery) in
  if (Z.of_nat (length results2) <? count)%Z then
    let remaining :=
      List.map song
        (Js.slice_first (count - Z.of_nat (length results2))
           (filter (fun s => negb (includes_ref results2 (song s))) scored)) in
    results2 ++ remaining
  else results2.

End Scorer.

(* ====================================================================== *)
(** ** The strategy selector *)

Inductive Strategy := focus_mode | discovery_mode | balanced.

Definition skipRate (this : Engine) : Js.num :=
  inject_Z (Z.of_nat (recentSkips (listeningHistory this))) /! 10.

Definition getRecommendationStrategy (this : Engine) : Strategy :=
  if Js.gtb (skipRate this) 0.5 then focus_mode
  else if Js.gtb (discoveryOpenness (userProfile this)) 0.4 then discovery_mode
  else balanced.

Definition resetProfile (now : Z) (this : Engine) : Engine :=
  mkEngine (initializeProfile now) [].

(* ====================================================================== *)
(** ** JSON values and the built-ins the import relies on *)

Module Json.

#[local] Set Warnings "-register-all".

(** A value that [JSON.parse] returns. *)
Inductive value :=
| Null
| Bool (b : bool)
| Num (n : Js.num)
| Str (s : string)
| Arr (items : list value)
| Obj (fields : list (string * value)).

Inductive exn := SyntaxError | TypeError.

(** How an expression completes: with a value, or by throwing. *)
Inductive completion (A : Type) :=
| Normal (a : A)
| Throw (e : exn).
Arguments Normal {A} a.
Arguments Throw {A} e.

Fixpoint lookup (fields : list (string * value)) (k : string) : option value :=
  match fields with
  | [] => None
  | (k', v) :: rest => if String.eqb k k' then Some v else lookup rest k
  end.

(** [v.k] for a parsed value [v] ([None] is [undefined]) and a property name
    [k] that no prototype defines: reading a property of [undefined] or [null]
    throws a [TypeError], an object gives its field or [undefined], every
    other value gives [undefined]. *)
Definition get (v : option value) (k : string) : completion (option value) :=
  match v with
  | None => Throw TypeError
  | Some Null => Throw TypeError
  | Some (Obj fields) => Normal (lookup fields k)
  | Some _ => Normal None
  end.

(** A value read from the blob into a field of the profile: [Typed a] when it
    has the field's declared TypeScript type, [Untyped] when JavaScript stores
    it all the same although it has not (the engine then holds a value that
    its declared types, and this embedding, do not describe). *)
Inductive decoded (A : Type) :=
| Typed (a : A)
| Untyped.
Arguments Typed {A} a.
Arguments Untyped {A}.

(** One item of the iterable given to [new Map]: an array [[k, v, ...]] or an
    object gives the entry of its properties [0] and [1]; anything else is
    not an entry object ([None]). *)
Definition entry_of (item : value) : option (option value * option value) :=
  match item with
  | Arr items => Some (nth_error items 0, nth_error items 1)
  | Obj fields => Some (lookup fields "0"%string, lookup fields "1"%string)
  | _ => None
  end.

Definition typed_entry (e : option value * option value)
    : option (string * Js.num) :=
  match e with
  | (Some (Str k), Some (Num n)) => Some (k, n)
  | _ => None
  end.

(** All of the list, when every element is given. *)
Fixpoint all_some {A} (xs : list (option A)) : option (list A) :=
  match xs with
  | [] => Some []
  | Some x :: rest =>
      match all_some rest with
      | Some ys => Some (x :: ys)
      | None => None
      end
  | None :: _ => None
  end.

(** [new Map(v)]: [undefined] and [null] give an empty map; an array is
    iterated and each of its items must be an entry object; a string is
    iterated by characters, none of which is an entry object; a boolean, a
    number and a plain object are not iterable. *)
Definition new_Map (v : option value) : completion (decoded (Js.Map Js.num)) :=
  match v with
  | None => Normal (Typed [])
  | Some Null => Normal (Typed [])
  | Some (Arr items) =>
      match all_some (List.map entry_of items) with
      | None => Throw TypeError
      | Some entries =>
          match all_some (List.map typed_entry entries) with
          | Some es => Normal (Typed (Js.Map_of_entries es))
          | None => Normal Untyped
          end
      end
  | Some (Str EmptyString) => Normal (Typed [])
  | Some _ => Throw TypeError
  end.

Definition as_string (v : value) : option string :=
  match v with
  | Str s => Some s
  | _ => None
  end.

(** A value stored in [favoriteArtists : string[]]. *)
Definition string_array (v : option value) : decoded (list string) :=
  match v with
  | Some (Arr items) =>
      match all_some (List.map as_string items) with
      | Some l => Typed l
      | None => Untyped
      end
  | _ => Untyped
  end.

(** A value stored in [discoveryOpenness : number]. *)
Definition number (v : option value) : decoded Js.num :=
  match v with
  | Some (Num n) => Typed n
  | _ => Untyped
  end.

End Json.

(* ====================================================================== *)
(** ** Export and import of the profile *)

Local Open Scope string_scope.

Definition Action_name (a : Action) : string :=
  match a with
  | play => "play"
  | skip => "skip"
  | replay => "replay"
  | like => "like"
  | full_listen => "full_listen"
  end.

(** A field that [JSON.stringify] writes only when it is defined. *)
Definition optional_field {A} (k : string) (f : A -> Json.value) (x : option A)
    : list (string * Json.value) :=
  match x with
  | Some a => [(k, f a)]
  | None => []
  end.

Definition event_json (e : ListeningEvent.t) : Json.value :=
  Json.Obj
    ([("songId", Json.Str (ListeningEvent.songId e));
      ("artist", Json.Str (ListeningEvent.artist e))]
     ++ optional_field "genre" Json.Str (ListeningEvent.genre e)
     ++ [("action", Json.Str (Action_name (ListeningEvent.action e)));
         ("timestamp", Json.Num (inject_Z (ListeningEvent.timestamp e)))]
     ++ optional_field "listenDuration" Json.Num (ListeningEvent.listenDuration e)
     ++ optional_field "songDuration" Json.Num (ListeningEvent.songDuration e))%list.

(** [Array.from(map.entries())] as JSON: an array of two-element arrays. *)
Definition entries_json (m : Js.Map Js.num) : Json.value :=
  Json.Arr (List.map (fun e => Json.Arr [Json.Str (fst e); Json.Num (snd e)])
              (Js.Map_entries m)).

(** The [profile] object of the export. *)
Definition profile_json (p : UserTasteProfile) : Json.value :=
  Json.Obj
    [("artistPreferences", entries_json (artistPreferences p));
     ("genrePreferences", entries_json (genrePreferences p));
     ("favoriteArtists", Json.Arr (List.map Json.Str (favoriteArtists p)));
     ("discoveryOpenness", Json.Num (discoveryOpenness p))].

(** The object that [exportProfile] serialises. *)
Definition export_value (this : Engine) : Json.value :=
  Json.Obj
    [("profile", profile_json (userProfile this));
     ("history", Json.Arr (List.map event_json
                             (Js.slice_last 20 (listeningHistory this))))].

(** The engine as the import leaves it: [InModel e] when every field holds a
    value of its declared type, [OutOfModel] once a field was assigned an
    [Json.Untyped] value. *)
Inductive Store :=
| InModel (e : Engine)
| OutOfModel.

(** The state an [importProfile] call runs in: the engine and the console. *)
Record World := mkWorld {
  engine : Store;
  console_errors : list Json.exn
}.

(** Statements: they change the world and complete normally or throw; what
    was assigned before a throw stays assigned. *)
Definition M (A : Type) := World -> Json.completion A * World.

Definition ret {A} (a : A) : M A := fun w => (Json.Normal a, w).

Definition bind {A B} (m : M A) (k : A -> M B) : M B :=
  fun w =>
    match m w with
    | (Json.Normal a, w') => k a w'
    | (Json.Throw e, w') => (Json.Throw e, w')
    end.

Notation "x <- m ;; k" := (bind m (fun x => k))
  (at level 61, m at next level, right associativity).

Definition eval {A} (c : Json.completion A) : M A := fun w => (c, w).

(** [try { body } catch (error) { handler(error) }]. *)
Definition try_catch (body : M unit) (handler : Json.exn -> M unit) : M unit :=
  fun w =>
    match body w with
    | (Json.Normal a, w') => (Json.Normal a, w')
    | (Json.Throw e, w') => handler e w'
    end.

Definition console_error (e : Json.exn) : M unit :=
  fun w => (Json.Normal tt, mkWorld (engine w) (console_errors w ++ [e])).

(** [this.userProfile.f = v] for a decoded [v]. *)
Definition assign {A} (f : UserTasteProfile -> A -> UserTasteProfile)
    (v : Json.decoded A) : M unit :=
  fun w =>
    match engine w, v with
    | InModel e, Json.Typed a =>
        (Json.Normal tt,
         mkWorld (InModel (mkEngine (f (userProfile e) a) (listeningHistory e)))
                 (console_errors w))
    | _, _ => (Json.Normal tt, mkWorld OutOfModel (console_errors w))
    end.

Section Blob.

(** [JSON.parse] and [JSON.stringify(_, null, 2)] are built-ins of the
    language: parameters of the embedding. [JSON_parse] gives [None] where the
    built-in throws a [SyntaxError]. *)
Variable JSON_parse : string -> option Json.value.
Variable JSON_stringify : Json.value -> string.

Definition parse (data : string) : Json.completion Json.value :=
  match JSON_parse data with
  | Some v => Json.Normal v
  | None => Json.Throw Json.SyntaxError
  end.

Definition exportProfile (this : Engine) : string :=
  JSON_stringify (export_value this).

Definition importProfile_body (data : string) : M unit :=
  parsed <- eval (parse data) ;;
  p <- eval (Json.get (Some parsed) "profile") ;;
  a <- eval (Json.get p "artistPreferences") ;;
  am <- eval (Json.new_Map a) ;;
  _ <- assign with_artistPreferences am ;;
  p <- eval (Json.get (Some parsed) "profile") ;;
  g <- eval (Json.get p "genrePreferences") ;;
  gm <- eval (Json.new_Map g) ;;
  _ <- assign with_genrePreferences gm ;;
  p <- eval (Json.get (Some parsed) "profile") ;;
  f <- eval (Json.get p "favoriteArtists") ;;
  _ <- assign with_favoriteArtists (Json.string_array f) ;;
  p <- eval (Json.get (Some parsed) "profile") ;;
  d <- eval (Json.get p "discoveryOpenness") ;;
  assign with_discoveryOpenness (Json.number d).

Definition importProfile (data : string) : M unit :=
  try_catch (importProfile_body data) console_error.

(** The engine after [importProfile(data)] on the engine [this]. *)
Definition import_into (data : string) (this : Engine) : Json.completion unit * World :=
  importProfile data (mkWorld (InModel this) []).

End Blob.

Local Close Scope string_scope.

(* ====================================================================== *)
(** ** A reader and a writer of JSON text

    A concrete pair of functions for the two parameters of [Blob], used where
    a property is shown on an actual text. The writer lays a value out as
    [JSON.stringify(_, null, 2)] does; the reader accepts JSON text whose
    numbers are written without an exponent and whose strings use no [\u]
    escape, and keeps the last value of a repeated member name. *)

Module JsonText.

Import Json.
Local Open Scope string_scope.
Local Open Scope Z_scope.

Definition dquote : ascii := ascii_of_nat 34.
Definition backslash : ascii := ascii_of_nat 92.
Definition newline : ascii := ascii_of_nat 10.
Definition quoted (s : string) : string :=
  String dquote (s ++ String dquote EmptyString).

Definition digit_char (d : Z) : ascii := ascii_of_nat (48 + Z.to_nat d).

(** The decimal digits of a natural number. *)
Fixpoint write_nat (fuel : nat) (n : Z) (acc : string) : string :=
  match fuel with
  | O => acc
  | S fuel' =>
      let acc' := String (digit_char (n mod 10)) acc in
      if n / 10 =? 0 then acc' else write_nat fuel' (n / 10) acc'
  end.

(** The digits after the decimal point of [r / d], for [0 <= r < d]. *)
Fixpoint write_fraction (fuel : nat) (r d : Z) : string :=
  match fuel with
  | O => EmptyString
  | S fuel' =>
      if r =? 0 then EmptyString
      else String (digit_char (r * 10 / d)) (write_fraction fuel' (r * 10 mod d) d)
  end.

Definition write_num (q : Js.num) : string :=
  let n := Qnum q in
  let d := Zpos (Qden q) in
  let a := Z.abs n in
  let whole := write_nat (S (Z.to_nat (Z.log2 a))) (a / d) EmptyString in
  let frac := write_fraction 40 (a mod d) d in
  (if n <? 0 then "-" else EmptyString)
  ++ whole
  ++ (match frac with EmptyString => EmptyString | _ => "." ++ frac end).

Fixpoint write_chars (s : string) : string :=
  match s with
  | EmptyString => EmptyString
  | String c r =>
      if Ascii.eqb c dquote || Ascii.eqb c backslash
      then String backslash (String c (write_chars r))
      else String c (write_chars r)
  end.

Definition write_str (s : string) : string := quoted (write_chars s).

Fixpoint spaces (n : nat) : string :=
  match n with
  | O => EmptyString
  | S n' => String " " (spaces n')
  end.

Definition break (indent : nat) : string := String newline (spaces indent).

Fixpoint write (indent : nat) (v : value) : string :=
  match v with
  | Null => "null"
  | Bool true => "true"
  | Bool false => "false"
  | Num n => write_num n
  | Str s => write_str s
  | Arr [] => "[]"
  | Arr (first :: rest) =>
      "[" ++ break (indent + 2) ++ write (indent + 2) first
      ++ (fix items (l : list value) : string :=
            match l with
            | [] => EmptyString
            | x :: l' =>
                "," ++ break (indent + 2) ++ write (indent + 2) x ++ items l'
            end) rest
      ++ break indent ++ "]"
  | Obj [] => "{}"
  | Obj ((k, first) :: rest) =>
      "{" ++ break (indent + 2) ++ write_str k ++ ": " ++ write (indent + 2) first
      ++ (fix members (l : list (string * value)) : string :=
            match l with
            | [] => EmptyString
            | (k', x) :: l' =>
                "," ++ break (indent + 2) ++ write_str k' ++ ": "
                ++ write (indent + 2) x ++ members l'
            end) rest
      ++ break indent ++ "}"
  end.

Definition stringify (v : value) : string := write 0 v.

(** *** The reader *)

Definition is_space (c : ascii) : bool :=
  Ascii.eqb c " " || Ascii.eqb c newline
  || Ascii.eqb c (ascii_of_nat 13) || Ascii.eqb c (ascii_of_nat 9).

Fixpoint skip_ws (s : string) : string :=
  match s with
  | String c r => if is_space c then skip_ws r else s
  | EmptyString => s
  end.

Definition digit_of (c : ascii) : option Z :=
  let n := Z.of_nat (nat_of_ascii c) in
  if (48 <=? n) && (n <=? 57) then Some (n - 48) else None.

(** The longest prefix of digits: its value, its length, and the rest. *)
Fixpoint read_digits (s : string) (acc : Z) (len : nat) : Z * nat * string :=
  match s with
  | String c r =>
      match digit_of c with
      | Some d => read_digits r (acc * 10 + d) (S len)
      | None => (acc, len, s)
      end
  | EmptyString => (acc, len, s)
  end.

Definition read_unsigned (s : string) : option (Js.num * string) :=
  match read_digits s 0 O with
  | (_, O, _) => None
  | (whole, _, String "." r) =>
      match read_digits r 0 O with
      | (_, O, _) => None
      | (frac, k, r') =>
          let scale := 10 ^ Z.of_nat k in
          Some (Qred (Qmake (whole * scale + frac) (Z.to_pos scale)), r')
      end
  | (whole, _, r) => Some (inject_Z whole, r)
  end.

Definition read_num (s : string) : option (Js.num * string) :=
  match s with
  | String "-" r =>
      match read_unsigned r with
      | Some (q, r') => Some (Qred (Qopp q), r')
      | None => None
      end
  | _ => read_unsigned s
  end.

(** The characters of a string up to its closing quote. *)
Fixpoint read_chars (s : string) : option (string * string) :=
  match s with
  | EmptyString => None
  | String c r =>
      if Ascii.eqb c dquote then Some (EmptyString, r)
      else if Ascii.eqb c backslash then
        match r with
        | String e r' =>
            let lit :=
              if Ascii.eqb e dquote || Ascii.eqb e backslash || Ascii.eqb e "/"
              then Some e
              else if Ascii.eqb e "n" then Some newline
              else if Ascii.eqb e "t" then Some (ascii_of_nat 9)
              else if Ascii.eqb e "r" then Some (ascii_of_nat 13)
              else if Ascii.eqb e "b" then Some (ascii_of_nat 8)
              else if Ascii.eqb e "f" then Some (ascii_of_nat 12)
              else None in
            match lit, read_chars r' with
            | Some x, Some (body, rest) => Some (String x body, rest)
            | _, _ => None
            end
        | EmptyString => None
        end
      else
        match read_chars r with
        | Some (body, rest) => Some (String c body, rest)
        | None => None
        end
  end.

(** [s] without the prefix [p], when it starts with it. *)
Fixpoint strip (p s : string) : option string :=
  match p, s with
  | EmptyString, _ => Some s
  | String a p', String b s' => if Ascii.eqb a b then strip p' s' else None
  | _, EmptyString => None
  end.

Section Composite.

Variable read_value : string -> option (value * string).

(** The items of an array after the first bracket, up to the closing one. *)
Fixpoint read_items (fuel : nat) (s : string) : option (list value * string) :=
  match fuel with
  | O => None
  | S fuel' =>
      match read_value s with
      | Some (v, r) =>
          match skip_ws r with
          | String "," r' =>
              match read_items fuel' r' with
              | Some (vs, r'') => Some (v :: vs, r'')
              | None => None
              end
          | String "]" r' => Some ([v], r')
          | _ => None
          end
      | None => None
      end
  end.

Definition read_member (s : string) : option (string * value * string) :=
  match skip_ws s with
  | String c r =>
      if Ascii.eqb c dquote then
        match read_chars r with
        | Some (k, r1) =>
            match skip_ws r1 with
            | String ":" r2 =>
                match read_value r2 with
                | Some (v, r3) => Some (k, v, r3)
                | None => None
                end
            | _ => None
            end
        | None => None
        end
      else None
  | EmptyString => None
  end.

Fixpoint read_members (fuel : nat) (s : string)
    : option (list (string * value) * string) :=
  match fuel with
  | O => None
  | S fuel' =>
      match read_member s with
      | Some (k, v, r) =>
          match skip_ws r with
          | String "," r' =>
              match read_members fuel' r' with
              | Some (ms, r'') => Some ((k, v) :: ms, r'')
              | None => None
              end
          | String "}" r' => Some ([(k, v)], r')
          | _ => None
          end
      | None => None
      end
  end.

End Composite.

Fixpoint read_value (fuel : nat) (s : string) : option (value * string) :=
  match fuel with
  | O => None
  | S fuel' =>
      match skip_ws s with
      | EmptyString => None
      | String c r =>
          if Ascii.eqb c dquote then
            match read_chars r with
            | Some (body, rest) => Some (Str body, rest)
            | None => None
            end
          else if Ascii.eqb c "[" then
            match skip_ws r with
            | String "]" r' => Some (Arr [], r')
            | _ =>
                match read_items (read_value fuel') fuel' r with
                | Some (vs, rest) => Some (Arr vs, rest)
                | None => None
                end
            end
          else if Ascii.eqb c "{" then
            match skip_ws r with
            | String "}" r' => Some (Obj [], r')
            | _ =>
                match read_members (read_value fuel') fuel' r with
                | Some (ms, rest) => Some (Obj (Js.Map_of_entries ms), rest)
                | None => None
                end
            end
          else if Ascii.eqb c "n" then
            option_map (fun rest => (Null, rest)) (strip "ull" r)
          else if Ascii.eqb c "t" then
            option_map (fun rest => (Bool true, rest)) (strip "rue" r)
          else if Ascii.eqb c "f" then
            option_map (fun rest => (Bool false, rest)) (strip "alse" r)
          else
            match read_num (String c r) with
            | Some (q, rest) => Some (Num q, rest)
            | None => None
            end
      end
  end.

(** The value of a whole text; [None] when the text is not JSON. *)
Definition parse (s : string) : option value :=
  match read_value (S (String.length s)) s with
  | Some (v, rest) =>
      match skip_ws rest with
      | EmptyString => Some v
      | _ => None
      end
  | None => None
  end.

End JsonText.

(* ====================================================================== *)
(** * The player around the engine

    The helpers and the state updates of [PlayerProvider] in
    src/Frontend/src/hooks/usePlayer.tsx and [transformTrack] of
    src/Frontend/Frontend/src/api/client.ts. *)

(** ** JavaScript strings

    A [string] stands for a JavaScript string whose code units are below
    256. *)

Module JsString.

(** [s.startsWith(p)]. *)
Fixpoint startsWith (s p : string) : bool :=
  match p, s with
  | EmptyString, _ => true
  | String a p', String b s' => Ascii.eqb a b && startsWith s' p'
  | String _ _, EmptyString => false
  end.

(** [s.includes(sub)]. *)
Fixpoint includes (s sub : string) : bool :=
  startsWith s sub
  || match s with
     | String _ s' => includes s' sub
     | EmptyString => false
     end.

(** [s.slice(n)]. *)
Fixpoint drop (n : nat) (s : string) : string :=
  match n, s with
  | O, _ => s
  | S n', String _ s' => drop n' s'
  | S _, EmptyString => EmptyString
  end.

(** [s.replace(pattern, replacement)] for a string [pattern] and a
    [replacement] without [$]: the first occurrence is replaced. *)
Fixpoint replace (s pattern replacement : string) : string :=
  if startsWith s pattern
  then (replacement ++ drop (String.length pattern) s)%string
  else match s with
       | String c s' => String c (replace s' pattern replacement)
       | EmptyString => EmptyString
       end.

(** The lower case of a code unit below 256: [A-Z] and the capital letters
    of Latin-1 (U+00C0 to U+00DE but the multiplication sign) move up by
    32. *)
Definition lower (c : ascii) : ascii :=
  let n := nat_of_ascii c in
  if (Nat.leb 65 n && Nat.leb n 90)
     || (Nat.leb 192 n && Nat.leb n 222 && negb (Nat.eqb n 215))
  then ascii_of_nat (n + 32)
  else c.

(** [s.toLowerCase()]. *)
Fixpoint toLowerCase (s : string) : string :=
  match s with
  | EmptyString => EmptyString
  | String c s' => String (lower c) (toLowerCase s')
  end.

(** The class [[a-z0-9]]. *)
Definition is_lower_alnum (c : ascii) : bool :=
  let n := nat_of_ascii c in
  (Nat.leb 97 n && Nat.leb n 122) || (Nat.leb 48 n && Nat.leb n 57).

(** [s.replace(/[^a-z0-9]/g, '')]. *)
Fixpoint strip_non_alnum (s : string) : string :=
  match s with
  | EmptyString => EmptyString
  | String c s' =>
      if is_lower_alnum c then String c (strip_non_alnum s')
      else strip_non_alnum s'
  end.

(** [xs.join(sep)]. *)
Fixpoint join (sep : string) (xs : list string) : string :=
  match xs with
  | [] => EmptyString
  | [x] => x
  | x :: rest => (x ++ sep ++ join sep rest)%string
  end.

(** Truthiness of a string: every string but the empty one. *)
Definition truthy (s : string) : bool :=
  match s with
  | EmptyString => false
  | String _ _ => true
  end.

(** [s || d] for an optional string [s]. *)
Definition or_else (s : option string) (d : string) : string :=
  match s with
  | Some x => if truthy x then x else d
  | None => d
  end.

End JsString.

(** ** Titles *)

Definition clean_title (title : string) : string :=
  JsString.strip_non_alnum (JsString.toLowerCase title).

Definition isTitleTooSimilar (currentTitle newTitle : string) : bool :=
  let clean1 := clean_title currentTitle in
  let clean2 := clean_title newTitle in
  JsString.includes clean1 clean2 || JsString.includes clean2 clean1.

(** ** Tracks of the backend and songs of the player *)

Module BackendTrack.
(** [artists?: string[] | string]. *)
Inductive artists_t :=
| Names (names : list string)
| Name (name : string).

Record t := mk {
  id : string;
  youtube_id : option string;
  name : option string;
  artists : option artists_t;
  album : option string;
  duration : option Js.num;
  image : option string;
  thumbnail : option string
}.
End BackendTrack.

(** The [Song] of types/music.ts with its declared fields (the record
    [Song.t] above has the fields that the engine reads). *)
Module PlayerSong.
Record t := mk {
  id : string;
  youtube_id : option string;
  title : string;
  artist : string;
  album : string;
  duration : Js.num;
  coverUrl : string;
  audioUrl : option string
}.
End PlayerSong.

(** A value, or an [Error] thrown with a message. *)
Inductive thrown (A : Type) :=
| Value (a : A)
| Error (message : string).
Arguments Value {A} a.
Arguments Error {A} message.

Local Open Scope string_scope.

(** The video id that [transformTrack] settles on. *)
Definition youtubeId_of (raw : BackendTrack.t) : string :=
  JsString.or_else (BackendTrack.youtube_id raw)
    (JsString.replace (BackendTrack.id raw) "youtube_" "").

(** [transformTrack(raw)]; [None] is a [raw] that is [null] or [undefined]. *)
Definition transformTrack (raw : option BackendTrack.t) : thrown PlayerSong.t :=
  match raw with
  | None => Error "Track data is null"
  | Some raw =>
      let youtubeId := youtubeId_of raw in
      Value (PlayerSong.mk
        ("yt_" ++ youtubeId)
        (Some youtubeId)
        (JsString.or_else (BackendTrack.name raw) "Unknown Track")
        (match BackendTrack.artists raw with
         | Some (BackendTrack.Names names) => JsString.join ", " names
         | Some (BackendTrack.Name name) =>
             JsString.or_else (Some name) "Unknown Artist"
         | None => "Unknown Artist"
         end)
        (JsString.or_else (BackendTrack.album raw) "Single")
        (inject_Z (Qfloor (Js.or_zero (BackendTrack.duration raw) /! 1000)))
        (JsString.or_else (BackendTrack.image raw)
           ("https://img.youtube.com/vi/" ++ youtubeId ++ "/hqdefault.jpg"))
        (Some ("https://www.youtube.com/watch?v=" ++ youtubeId)))
  end.

(** [getVideoId(song)]. *)
Definition getVideoId (song : PlayerSong.t) : string :=
  JsString.or_else (PlayerSong.youtube_id song)
    (JsString.replace (PlayerSong.id song) "yt_" "").

Local Close Scope string_scope.

(** ** The state of the player and the queue *)

Module RepeatMode.
Inductive t := off | all | one.
End RepeatMode.

Module Direction.
Inductive t := next | prev.
End Direction.

(** [PlayerState]; of its songs the queue functions read the [id] only. *)
Module PlayerState.
Record t := mk {
  currentSong : option Song.t;
  isPlaying : bool;
  progress : Js.num;
  currentTime : Js.num;
  duration : Js.num;
  volume : Js.num;
  isShuffled : bool;
  repeatMode : RepeatMode.t;
  queue : list Song.t
}.
End PlayerState.

(** [queue.findIndex(s => s.id === id)]; [None] is [-1]. *)
Fixpoint findIndex (queue : list Song.t) (id : string) : option nat :=
  match queue with
  | [] => None
  | s :: rest =>
      if String.eqb (Song.id s) id then Some O
      else option_map S (findIndex rest id)
  end.

(** [queue[i]] for an integer [i]; [None] is [undefined]. *)
Definition at_index (queue : list Song.t) (i : Z) : option Song.t :=
  if (i <? 0)%Z then None else nth_error queue (Z.to_nat i).

(** The [do ... while] of the shuffle: each round takes the next result of
    [Math.random()] from [draws]; [None] when the loop is still running
    after the last of them. *)
Fixpoint shuffle_index (draws : list Js.num) (len currentIndex : nat)
    : option Z :=
  match draws with
  | [] => None
  | random :: rest =>
      let nextIndex := Qfloor (random *! inject_Z (Z.of_nat len)) in
      if Nat.ltb 1 len && Z.eqb nextIndex (Z.of_nat currentIndex)
      then shuffle_index rest len currentIndex
      else Some nextIndex
  end.

(** [getNextTrack(direction)] in the state [state], with the results of
    [Math.random()] in [draws]: [Some None] is [null] (or [undefined]),
    [None] a shuffle that has not ended within the draws. *)
Definition getNextTrack (draws : list Js.num) (state : PlayerState.t)
    (direction : Direction.t) : option (option Song.t) :=
  let queue := PlayerState.queue state in
  match queue, PlayerState.currentSong state with
  | [], _ => Some None
  | _, None => Some None
  | _, Some currentSong =>
      match findIndex queue (Song.id currentSong) with
      | None => Some (at_index queue 0)
      | Some currentIndex =>
          if PlayerState.isShuffled state then
            option_map (at_index queue)
              (shuffle_index draws (length queue) currentIndex)
          else
            match direction with
            | Direction.next =>
                let nextIndex := (Z.of_nat currentIndex + 1)%Z in
                if (Z.of_nat (length queue) <=? nextIndex)%Z then
                  match PlayerState.repeatMode state with
                  | RepeatMode.off => Some None
                  | _ => Some (at_index queue 0)
                  end
                else Some (at_index queue nextIndex)
            | Direction.prev =>
                let nextIndex := (Z.of_nat currentIndex - 1)%Z in
                if (nextIndex <? 0)%Z
                then Some (at_index queue (Z.of_nat (length queue) - 1))
                else Some (at_index queue nextIndex)
            end
      end
  end.

(** The state update of [playSong(song)]. *)
Definition playSong_update (song : Song.t) (prev : PlayerState.t)
    : PlayerState.t :=
  let queueHasSong :=
    existsb (fun s => String.eqb (Song.id s) (Song.id song))
      (PlayerState.queue prev) in
  PlayerState.mk (Some song) true 0 0
    (PlayerState.duration prev) (PlayerState.volume prev)
    (PlayerState.isShuffled prev) (PlayerState.repeatMode prev)
    (if queueHasSong then PlayerState.queue prev
     else PlayerState.queue prev ++ [song]).

(** The state update of [addToQueue(song)]. *)
Definition addToQueue_update (song : Song.t) (prev : PlayerState.t)
    : PlayerState.t :=
  PlayerState.mk (PlayerState.currentSong prev) (PlayerState.isPlaying prev)
    (PlayerState.progress prev) (PlayerState.currentTime prev)
    (PlayerState.duration prev) (PlayerState.volume prev)
    (PlayerState.isShuffled prev) (PlayerState.repeatMode prev)
    (PlayerState.queue prev ++ [song]).


(** ** The automatic queue *)

(** The filter that [handleIntelligentAutoQueue] puts the search results
    through. *)
Definition autoQueue_candidates (heap : Heap) (currentSong : Song.t)
    (queue : list Song.t) (candidates : list objref) : list objref :=
  filter
    (fun c =>
       negb (existsb (fun q => String.eqb (Song.id q) (Song.id (heap c))) queue)
       && negb (String.eqb (Song.id (heap c)) (Song.id currentSong))
       && negb (isTitleTooSimilar (Song.title currentSong) (Song.title (heap c))))
    candidates.

(** The songs that [handleIntelligentAutoQueue] appends to the queue, given
    the results of the search: the recommendations, or the first three
    candidates when there is no recommendation. *)
Definition autoQueue_additions (heap : Heap) (this : Engine)
    (context : SessionContext) (searched : list objref) : list objref :=
  let candidates :=
    autoQueue_candidates heap (currentSong context) (queue context) searched in
  let recommendations := recommendNextSongs heap this candidates context 5 in
  if Nat.ltb 0 (length recommendations) then recommendations
  else Js.slice_first 3 candidates.

(** ** The display of a time *)

(** [Math.trunc] as an integer. *)
Definition Math_trunc (a : Js.num) : Z :=
  if Qle_bool 0 a then Qfloor a else Qceiling a.

(** [a % b]: the remainder has the sign of [a]. *)
Definition Number_rem (a b : Js.num) : Js.num :=
  a -! b *! inject_Z (Math_trunc (a /! b)).

(** The decimal digits that JavaScript prints for an integer (of a size
    below 10^21). *)
Definition Number_toString (z : Z) : string :=
  let digits n := JsonText.write_nat (S (Z.to_nat (Z.log2 n))) n EmptyString in
  if (z <? 0)%Z then String "-" (digits (- z)%Z) else digits z.

(** [s.padStart(target, fill)] for a one-character [fill]. *)
Definition padStart (target : nat) (fill : ascii) (s : string) : string :=
  (string_of_list_ascii (repeat fill (target - String.length s)) ++ s)%string.

(** [formatTime(seconds)]. *)
Definition formatTime (seconds : Js.num) : string :=
  if negb (Js.truthy seconds) then "0:00"%string
  else
    let mins := Qfloor (seconds /! 60) in
    let secs := Qfloor (Number_rem seconds 60) in
    (Number_toString mins ++ ":" ++ padStart 2 "0" (Number_toString secs))%string.

(** ** The events that the player records *)

(** The event that [nextSong] records before it moves on, if any: a skip
    when less than 70% of the current song has been played. [timestamp] is
    the reading of [Date.now()]. *)
Definition nextSong_event (timestamp : Z) (state : PlayerState.t)
    : option ListeningEvent.t :=
  match PlayerState.currentSong state with
  | Some currentSong =>
      if Js.ltb (PlayerState.currentTime state)
                (PlayerState.duration state *! 0.7)
      then Some (ListeningEvent.mk (Song.id currentSong) (Song.artist currentSong)
                   (Song.genre currentSong) skip timestamp
                   (Some (PlayerState.currentTime state))
                   (Some (PlayerState.duration state)))
      else None
  | None => None
  end.

(** The event that the completion effect records, if any: a full listen
    when the player is not playing and more than 90% of the current song
    has been played. *)
Definition completion_event (timestamp : Z) (state : PlayerState.t)
    : option ListeningEvent.t :=
  match PlayerState.currentSong state with
  | Some currentSong =>
      if negb (PlayerState.isPlaying state)
         && Js.gtb (PlayerState.currentTime state) 0
      then
        let completionRatio :=
          PlayerState.currentTime state
          /! (if Js.truthy (PlayerState.duration state)
              then PlayerState.duration state else 1) in
        if Js.gtb completionRatio 0.9
        then Some (ListeningEvent.mk (Song.id currentSong)
                     (Song.artist currentSong) (Song.genre currentSong)
                     full_listen timestamp
                     (Some (PlayerState.currentTime state))
                     (Some (PlayerState.duration state)))
        else None
      else None
  | None => None
  end.

(* ====================================================================== *)
(** * The vocabulary of the properties *)

(** ** One event *)

(** The score that the [switch] stores for the event's artist. *)
Definition artist_score_after (event : ListeningEvent.t) (current : Js.num)
    : Js.num :=
  match ListeningEvent.action event with
  | full_listen => current +! 3
  | like => current +! 5
  | replay => current +! 4
  | skip =>
      Js.Math_max 0
        (current +! (if Js.ltb (completionRatio event) 0.3 then -2 else -0.5))
  | play => current +! completionRatio event *! 1.5
  end.

(** The score that the genre update stores for the event's genre. *)
Definition genre_score_after (event : ListeningEvent.t) (current : Js.num)
    : Js.num :=
  Js.Math_max 0
    (current +! (if Action_eqb (ListeningEvent.action event) skip
                 then -1 else completionRatio event *! 2)).

(** ** The clamp of the affinity scores *)

Definition nonneg_values (m : Js.Map Js.num) : Prop :=
  forall k v, In (k, v) m -> 0 <= v.

(** Every stored artist score and every stored genre score is [>= 0]. *)
Definition nonneg_scores (this : Engine) : Prop :=
  nonneg_values (artistPreferences (userProfile this)) /\
  nonneg_values (genrePreferences (userProfile this)).

(** The durations of the event, where given, are not negative. *)
Definition durations_nonneg (event : ListeningEvent.t) : Prop :=
  (forall l, ListeningEvent.listenDuration event = Some l -> 0 <= l) /\
  (forall s, ListeningEvent.songDuration event = Some s -> 0 <= s).

(** ** Sorting *)

(** [a] may stand before [b] under the comparator [cmp]. *)
Definition before {A} (cmp : A -> A -> Js.num) (a b : A) : Prop := cmp a b <= 0.

(** ** The blend *)

(** The candidates, scored and sorted. *)
Definition scored_candidates (heap : Heap) (this : Engine)
    (context : SessionContext) (candidates : list objref)
    : list ScoredCandidate :=
  Js.sort by_total_desc
    (List.map (fun c => scoreSong heap this c context) candidates).

(** The scored candidates that the two [for] loops push. *)
Definition picked (heap : Heap) (this : Engine) (context : SessionContext)
    (candidates : list objref) (count : Z) : list ScoredCandidate :=
  (firstn (Z.to_nat (targetFamiliar this count))
     (filter (is_familiar heap this)
        (scored_candidates heap this context candidates))
   ++ firstn (Z.to_nat (targetDiscovery this count))
        (filter (fun s => negb (is_familiar heap this s))
           (scored_candidates heap this context candidates)))%list.

(** The scored candidates that the backfill pushes. *)
Definition backfill (heap : Heap) (this : Engine) (context : SessionContext)
    (candidates : list objref) (count : Z) : list ScoredCandidate :=
  let chosen := picked heap this context candidates count in
  if (Z.of_nat (length chosen) <? count)%Z then
    Js.slice_first (count - Z.of_nat (length chosen))
      (filter (fun s => negb (includes_ref (List.map song chosen) (song s)))
         (scored_candidates heap this context candidates))
  else [].

(** The track ids of a list of song references. *)
Definition track_ids (heap : Heap) (songs : list objref) : list string :=
  List.map (fun r => Song.id (heap r)) songs.

(** ** Export and import *)

(** The keys of the two score maps are not repeated. *)
Definition distinct_keys (this : Engine) : Prop :=
  NoDup (Js.Map_keys (artistPreferences (userProfile this))) /\
  NoDup (Js.Map_keys (genrePreferences (userProfile this))).

(** The engine after a complete import of the profile [p]. *)
Definition imported (p : UserTasteProfile) (this : Engine) : Engine :=
  let q := userProfile this in
  mkEngine
    (mkProfile (Js.Map_of_entries (Js.Map_entries (artistPreferences p)))
               (Js.Map_of_entries (Js.Map_entries (genrePreferences p)))
               (moodPreferences q) (recentlyPlayed q) (recentlySkipped q)
               (favoriteArtists p) (discoveryOpenness p) (lastUpdated q))
    (listeningHistory this).

(** ** Sequences of events *)

(** Recording a list of events, the oldest first, each with the clock
    reading of its recording. *)
Definition record_all (events : list (Z * ListeningEvent.t)) (this : Engine)
    : Engine :=
  fold_left (fun e ev => recordListeningEvent (fst ev) (snd ev) e) events this.

(** What the recorder keeps of [recentlyPlayed]. *)
Definition played_window (this : Engine) : Prop :=
  (length (recentlyPlayed (userProfile this)) <= RECENT_PLAYED_WINDOW)%nat /\
  NoDup (recentlyPlayed (userProfile this)).


(** What [importProfile] does not write: the history, the recency sets, the
    mood scores and the time stamp of [after] are those of [this]. *)
Definition same_session (this after : Engine) : Prop :=
  listeningHistory after = listeningHistory this /\
  recentlyPlayed (userProfile after) = recentlyPlayed (userProfile this) /\
  recentlySkipped (userProfile after) = recentlySkipped (userProfile this) /\
  moodPreferences (userProfile after) = moodPreferences (userProfile this) /\
  lastUpdated (userProfile after) = lastUpdated (userProfile this).


(** ** The queue *)

(** The ids of the songs of a queue. *)
Definition queue_ids (queue : list Song.t) : list string :=
  List.map Song.id queue.

(** The results of [Math.random()] lie in [0, 1). *)
Definition unit_draws (draws : list Js.num) : Prop :=
  Forall (fun r => 0 <= r < 1) draws.

(** ** The display of a time *)

(** The two decimal digits of a number below 100. *)
Definition two_digits (n : Z) : string :=
  String (JsonText.digit_char (n / 10))
    (String (JsonText.digit_char (n mod 10)) EmptyString).

(* ====================================================================== *)
(** * Sample data *)

(** A like of a rock song, and the engine after it. *)
Definition like_artist_x : ListeningEvent.t :=
  ListeningEvent.mk "t1" "Artist X" (Some "rock"%string) like 1000 None None.

Definition after_one_like : Engine :=
  recordListeningEvent 1 like_artist_x (new_engine 0).

(** A [play] event that reports a negative listening time. *)
Definition rewound_play : ListeningEvent.t :=
  ListeningEvent.mk "t1" "Artist X" None play 1 (Some (-10)) (Some 5).

(** A skip a tenth into a song: its durations are not negative. *)
Definition early_skip : ListeningEvent.t :=
  ListeningEvent.mk "t1" "Artist X" (Some "rock"%string) skip 2
    (Some 20) (Some 200).

Definition track (id title artist : string) : Song.t :=
  Song.mk id title artist "Album" 200 None None.

(** Three songs with three ids. *)
Definition library : Heap := fun r =>
  match r with
  | O => track "yt_1" "First" "Artist X"
  | S O => track "yt_2" "Second" "Artist Y"
  | _ => track "yt_3" "Third" "Artist Z"
  end.

(** Two song objects for one track: the same id under two titles. *)
Definition twins : Heap := fun r =>
  match r with
  | O => track "yt_1" "First (Official Video)" "Artist Y"
  | _ => track "yt_1" "First (Lyrics)" "Artist Y"
  end.

Definition idle_context : SessionContext :=
  mkContext (track "yt_0" "Current" "Artist X") [] [] evening 0 0 false None.

Local Open Scope string_scope.

(** A text whose [artistPreferences] is an array of entries and whose
    [genrePreferences] is the number 5, which [new Map] cannot iterate. *)
Definition half_good_text : string :=
  "{" ++ JsonText.quoted "profile" ++ ": {"
      ++ JsonText.quoted "artistPreferences" ++ ": [["
      ++ JsonText.quoted "Artist Z" ++ ", 9]], "
      ++ JsonText.quoted "genrePreferences" ++ ": 5, "
      ++ JsonText.quoted "favoriteArtists" ++ ": ["
      ++ JsonText.quoted "Artist Z" ++ "], "
      ++ JsonText.quoted "discoveryOpenness" ++ ": 0.2}}".

Local Close Scope string_scope.

(** The engine [after_one_like] with the artist scores of [half_good_text]
    and nothing else of it. *)
Definition half_imported : Engine :=
  mkEngine
    (with_artistPreferences (userProfile after_one_like)
       [("Artist Z"%string, 9)])
    (listeningHistory after_one_like).

(** A well-formed profile whose [discoveryOpenness] is 0.9. *)
Definition eager_profile : UserTasteProfile :=
  mkProfile [("Artist Z"%string, 9)] [("jazz"%string, 4)] [] [] []
    ["Artist Z"%string] 0.9 0.

Definition eager_fields : list (string * Json.value) :=
  [("profile"%string, profile_json eager_profile)].

(** Six skips of the same song. *)
Definition six_skips : list (Z * ListeningEvent.t) := repeat (2%Z, early_skip) 6.


(** Four songs, the first two by the artist that [after_one_like] likes. *)
Definition fan_library : Heap := fun r =>
  match r with
  | O => track "yt_1" "First" "Artist X"
  | S O => track "yt_2" "Second" "Artist X"
  | S (S O) => track "yt_3" "Third" "Artist Y"
  | _ => track "yt_4" "Fourth" "Artist Z"
  end.

(** A context whose current song is by an artist of no candidate. *)
Definition other_context : SessionContext :=
  mkContext (track "yt_0" "Current" "Artist W") [] [] evening 0 0 false None.

(** A player on the first of three queued songs, repeat off. *)
Definition three_queued : PlayerState.t :=
  PlayerState.mk (Some (library 0%nat)) true 0 0 200 75 false RepeatMode.off
    [library 0%nat; library 1%nat; library 2%nat].

(** The same player with shuffle on. *)
Definition three_shuffled : PlayerState.t :=
  PlayerState.mk (Some (library 0%nat)) true 0 0 200 75 true RepeatMode.off
    [library 0%nat; library 1%nat; library 2%nat].

(** A player a tenth into a 200-second song. *)
Definition early_in_song : PlayerState.t :=
  PlayerState.mk (Some (library 0%nat)) true 10 20 200 75 false RepeatMode.off
    [library 0%nat; library 1%nat; library 2%nat].

(* ====================================================================== *)
(** * Properties *)

(** ** Numbers *)

Lemma add_spec (a b : Js.num) : a +! b == a + b.
Proof. apply Qred_correct. Qed.

Lemma sub_spec (a b : Js.num) : a -! b == a - b.
Proof. apply Qred_correct. Qed.

Lemma mul_spec (a b : Js.num) : a *! b == a * b.
Proof. apply Qred_correct. Qed.

Lemma div_spec (a b : Js.num) : a /! b == a / b.
Proof. apply Qred_correct. Qed.

Lemma ltb_true (a b : Js.num) : Js.ltb a b = true <-> a < b.
Proof.
  unfold Js.ltb. rewrite negb_true_iff, <- not_true_iff_false, Qle_bool_iff.
  split; [apply Qnot_le_lt | apply Qlt_not_le].
Qed.

Lemma ltb_false (a b : Js.num) : Js.ltb a b = false <-> b <= a.
Proof.
  unfold Js.ltb. rewrite negb_false_iff. apply Qle_bool_iff.
Qed.

Lemma gtb_true (a b : Js.num) : Js.gtb a b = true <-> b < a.
Proof. apply ltb_true. Qed.

Lemma gtb_false (a b : Js.num) : Js.gtb a b = false <-> a <= b.
Proof. apply ltb_false. Qed.

Lemma leb_false (a b : Js.num) : Qle_bool a b = false <-> b < a.
Proof.
  rewrite <- not_true_iff_false, Qle_bool_iff.
  split; [apply Qnot_le_lt | apply Qlt_not_le].
Qed.

Lemma Math_max_cases (a b : Js.num) :
  (a <= b /\ Js.Math_max a b == b) \/ (b < a /\ Js.Math_max a b == a).
Proof.
  unfold Js.Math_max. rewrite Qred_correct. destruct (Qle_bool a b) eqn:E.
  - left. split; [now apply Qle_bool_iff | reflexivity].
  - right. split; [now apply leb_false | reflexivity].
Qed.

Lemma Math_min_cases (a b : Js.num) :
  (a <= b /\ Js.Math_min a b == a) \/ (b < a /\ Js.Math_min a b == b).
Proof.
  unfold Js.Math_min. rewrite Qred_correct. destruct (Qle_bool a b) eqn:E.
  - left. split; [now apply Qle_bool_iff | reflexivity].
  - right. split; [now apply leb_false | reflexivity].
Qed.

Lemma Math_max_lower (a b : Js.num) : a <= Js.Math_max a b.
Proof. destruct (Math_max_cases a b) as [[H E] | [H E]]; rewrite E; lra. Qed.

Lemma truthy_true (a : Js.num) : Js.truthy a = true <-> ~ a == 0.
Proof.
  unfold Js.truthy. rewrite negb_true_iff, <- not_true_iff_false, Qeq_bool_iff.
  tauto.
Qed.

Lemma or_zero_nonneg (o : option Js.num) :
  (forall v, o = Some v -> 0 <= v) -> 0 <= Js.or_zero o.
Proof.
  intros H. destruct o as [v|]; simpl; [|lra].
  destruct (Js.truthy v); [auto | lra].
Qed.

(** Unfolds the arithmetic of the engine into the arithmetic of [Q]. *)
Ltac to_Q :=
  rewrite ?add_spec, ?sub_spec, ?mul_spec, ?div_spec in *.

(** ** Maps and sets *)

Lemma Map_get_In {V} (m : Js.Map V) k v : Js.Map_get m k = Some v -> In (k, v) m.
Proof.
  induction m as [|[k' v'] m IH]; simpl; [discriminate|].
  destruct (String.eqb k k') eqn:E.
  - apply String.eqb_eq in E. intros [= ->]. left. now subst.
  - intros H. right. auto.
Qed.

Lemma Map_set_In {V} (m : Js.Map V) k v k0 v0 :
  In (k0, v0) (Js.Map_set m k v) -> In (k0, v0) m \/ (k0, v0) = (k, v).
Proof.
  induction m as [|[k' v'] m IH]; simpl.
  - intros [H | []]. right. now symmetry.
  - destruct (String.eqb k k') eqn:E; simpl.
    + apply String.eqb_eq in E. subst k'.
      intros [H | H]; [right; now symmetry | left; now right].
    + intros [H | H]; [left; now left|].
      destruct (IH H) as [H' | H']; [left; now right | now right].
Qed.

Lemma Map_set_keys {V} (m : Js.Map V) k v :
  Js.Map_keys (Js.Map_set m k v) =
  if Js.includes (Js.Map_keys m) k then Js.Map_keys m
  else (Js.Map_keys m ++ [k])%list.
Proof.
  unfold Js.Map_keys, Js.includes.
  induction m as [|[k' v'] m IH]; simpl; [reflexivity|].
  destruct (String.eqb k k') eqn:E; simpl; [reflexivity|].
  rewrite IH. now destruct (existsb (String.eqb k) (map fst m)).
Qed.

Lemma includes_In (xs : list string) x : Js.includes xs x = true <-> In x xs.
Proof.
  unfold Js.includes. rewrite existsb_exists. split.
  - intros (y & Hy & E). apply String.eqb_eq in E. now subst.
  - intros H. exists x. split; [assumption | apply String.eqb_refl].
Qed.

Lemma Set_has_In (s : Js.StrSet) x : Js.Set_has s x = true <-> In x s.
Proof. apply includes_In. Qed.

Lemma Map_set_NoDup {V} (m : Js.Map V) k v :
  NoDup (Js.Map_keys m) -> NoDup (Js.Map_keys (Js.Map_set m k v)).
Proof.
  intros H. rewrite Map_set_keys.
  destruct (Js.includes (Js.Map_keys m) k) eqn:E; [assumption|].
  apply NoDup_app; repeat split.
  - assumption.
  - repeat constructor. intros [].
  - intros x Hx [<- | []].
    apply includes_In in Hx. congruence.
Qed.

Lemma Map_set_fresh {V} (m : Js.Map V) k v :
  ~ In k (Js.Map_keys m) -> Js.Map_set m k v = (m ++ [(k, v)])%list.
Proof.
  unfold Js.Map_keys.
  induction m as [|[k' v'] m IH]; simpl; intros H; [reflexivity|].
  destruct (String.eqb k k') eqn:E.
  - apply String.eqb_eq in E. subst. tauto.
  - f_equal. apply IH. tauto.
Qed.

Lemma Map_of_entries_acc {V} (es acc : list (string * V)) :
  NoDup (Js.Map_keys (acc ++ es)) ->
  fold_left (fun m e => Js.Map_set m (fst e) (snd e)) es acc = (acc ++ es)%list.
Proof.
  revert acc. induction es as [|[k v] es IH]; intros acc H; simpl.
  - now rewrite app_nil_r.
  - rewrite Map_set_fresh.
    + rewrite IH; rewrite <- app_assoc; [reflexivity | exact H].
    + unfold Js.Map_keys in *. rewrite map_app in H. simpl in H.
      apply NoDup_remove_2 in H. intros Hin. apply H.
      apply in_or_app. now left.
Qed.

(** [new Map(Array.from(m.entries()))] is [m] again. *)
Lemma Map_of_entries_id {V} (m : Js.Map V) :
  NoDup (Js.Map_keys m) -> Js.Map_of_entries (Js.Map_entries m) = m.
Proof.
  intros H. unfold Js.Map_of_entries, Js.Map_entries.
  now rewrite Map_of_entries_acc.
Qed.

(** ** What one event does to each field of the profile *)

(** Runs through the branches of [updateTasteProfile]. *)
Ltac update_cases :=
  unfold updateTasteProfile; cbv zeta;
  match goal with
  | |- context [ListeningEvent.action ?e] => destruct (ListeningEvent.action e)
  end;
  repeat match goal with
  | |- context [match Js.truthy_str ?g with _ => _ end] =>
      destruct (Js.truthy_str g)
  | |- context [if Nat.ltb ?a ?b then _ else _] => destruct (Nat.ltb a b)
  | |- context [match recentlyPlayed ?p with _ => _ end] =>
      destruct (recentlyPlayed p)
  end;
  reflexivity.

Lemma update_history now event this :
  listeningHistory (updateTasteProfile now event this) = listeningHistory this.
Proof. reflexivity. Qed.

Lemma update_artistPreferences now event this :
  artistPreferences (userProfile (updateTasteProfile now event this)) =
  Js.Map_set (artistPreferences (userProfile this)) (ListeningEvent.artist event)
    (artist_score_after event
       (Js.or_zero (Js.Map_get (artistPreferences (userProfile this))
                      (ListeningEvent.artist event)))).
Proof.
  unfold artist_score_after.
  update_cases.
Qed.

Lemma update_genrePreferences now event this :
  genrePreferences (userProfile (updateTasteProfile now event this)) =
  match Js.truthy_str (ListeningEvent.genre event) with
  | Some genre =>
      Js.Map_set (genrePreferences (userProfile this)) genre
        (genre_score_after event
           (Js.or_zero (Js.Map_get (genrePreferences (userProfile this)) genre)))
  | None => genrePreferences (userProfile this)
  end.
Proof.
  unfold genre_score_after.
  update_cases.
Qed.

Lemma update_favoriteArtists now event this :
  favoriteArtists (userProfile (updateTasteProfile now event this)) =
  List.map fst
    (Js.slice_first 10
       (Js.sort by_score_desc
          (Js.Map_entries
             (artistPreferences (userProfile (updateTasteProfile now event this)))))).
Proof.
  update_cases.
Qed.

Lemma update_discoveryOpenness now event this :
  discoveryOpenness (userProfile (updateTasteProfile now event this)) =
  let d := discoveryOpenness (userProfile this) in
  let skips := recentSkips (listeningHistory this) in
  if Nat.ltb 5 skips then Js.Math_max 0.1 (d -! 0.05)
  else if Nat.ltb skips 2 then Js.Math_min 0.5 (d +! 0.05)
  else d.
Proof.
  update_cases.
Qed.

(* ====================================================================== *)
(** ** The completion ratio *)

(** The ratio is the quotient when both durations are given and non-zero. *)
Lemma completionRatio_quotient event l s :
  ListeningEvent.listenDuration event = Some l ->
  ListeningEvent.songDuration event = Some s ->
  ~ l == 0 -> ~ s == 0 ->
  completionRatio event == l / s.
Proof.
  intros Hl Hs Hl0 Hs0. unfold completionRatio. rewrite Hl, Hs. simpl.
  apply truthy_true in Hl0. apply truthy_true in Hs0. rewrite Hl0, Hs0. simpl.
  apply div_spec.
Qed.

(** The ratio is [1] when a duration is missing. *)
Lemma completionRatio_missing event :
  ListeningEvent.listenDuration event = None \/
  ListeningEvent.songDuration event = None ->
  completionRatio event = 1.
Proof.
  unfold completionRatio. intros [-> | ->]; simpl.
  - reflexivity.
  - now rewrite andb_false_r.
Qed.

(** C4 (the code at the failing input): an event whose [listenDuration] is
    [0] is processed with completion ratio [1], whatever its [songDuration]
    is, because [listenDuration && songDuration] is falsy for a zero
    [listenDuration]; a skip at second zero of a 200-second song therefore
    costs the artist 0.5 and not 2. *)
Theorem completionRatio_zero_listen :
  (forall id artist genre action ts s,
     completionRatio
       (ListeningEvent.mk id artist genre action ts (Some 0) (Some s)) = 1) /\
  (let liked := recordListeningEvent 1
       (ListeningEvent.mk "t1" "Artist X" None like 1 None None) (new_engine 0) in
   let skipped := recordListeningEvent 2
       (ListeningEvent.mk "t1" "Artist X" None skip 2 (Some 0) (Some 200)) liked in
   Js.Map_get (artistPreferences (userProfile liked)) "Artist X" = Some 5 /\
   Js.Map_get (artistPreferences (userProfile skipped)) "Artist X" = Some (9 # 2)).
Proof.
  split.
  - intros. reflexivity.
  - vm_compute. split; reflexivity.
Qed.

(* ====================================================================== *)
(** ** The strategy selector *)

Lemma slice_last_length {A} n (xs : list A) :
  length (Js.slice_last n xs) = Nat.min n (length xs).
Proof. unfold Js.slice_last. rewrite length_skipn. lia. Qed.

Lemma recentSkips_le history :
  (recentSkips history <= 10 /\ recentSkips history <= length history)%nat.
Proof.
  unfold recentSkips.
  pose proof (filter_length_le is_skip (Js.slice_last 10 history)) as H.
  rewrite slice_last_length in H. lia.
Qed.

Lemma skipRate_spec this :
  skipRate this == inject_Z (Z.of_nat (recentSkips (listeningHistory this))) / 10.
Proof. unfold skipRate. apply div_spec. Qed.

Lemma skipRate_above_half this :
  0.5 < skipRate this <-> (6 <= recentSkips (listeningHistory this))%nat.
Proof.
  rewrite skipRate_spec.
  set (k := recentSkips (listeningHistory this)).
  assert (E : inject_Z (Z.of_nat k) / 10 == (Z.of_nat k # 10)).
  { unfold Qdiv, Qmult, Qinv, inject_Z, Qeq. simpl. lia. }
  rewrite E. unfold Qlt. simpl. lia.
Qed.

(** C7: the skip rate is the number of skips among the last ten history
    entries divided by ten, whatever the length of the history (so a history
    of fewer than six entries never gives [focus_mode]); the strategy is
    [focus_mode] iff the rate exceeds 0.5, else [discovery_mode] iff
    [discoveryOpenness] exceeds 0.4, else [balanced]. *)
Theorem getRecommendationStrategy_spec (this : Engine) :
  let history := listeningHistory this in
  let skips := length (filter is_skip (Js.slice_last 10 history)) in
  let d := discoveryOpenness (userProfile this) in
  skipRate this == inject_Z (Z.of_nat skips) / 10 /\
  (skips <= length history)%nat /\
  (getRecommendationStrategy this = focus_mode <-> 0.5 < skipRate this) /\
  (getRecommendationStrategy this = focus_mode <-> (6 <= skips)%nat) /\
  (getRecommendationStrategy this = discovery_mode <->
     ~ 0.5 < skipRate this /\ 0.4 < d) /\
  (getRecommendationStrategy this = balanced <->
     ~ 0.5 < skipRate this /\ ~ 0.4 < d).
Proof.
  cbv zeta.
  change (length (filter is_skip (Js.slice_last 10 (listeningHistory this))))
    with (recentSkips (listeningHistory this)).
  split; [apply skipRate_spec|].
  split; [apply recentSkips_le|].
  rewrite <- skipRate_above_half.
  unfold getRecommendationStrategy.
  destruct (Js.gtb (skipRate this) 0.5) eqn:Hs;
    [apply gtb_true in Hs | apply gtb_false in Hs];
    (destruct (Js.gtb (discoveryOpenness (userProfile this)) 0.4) eqn:Hd;
       [apply gtb_true in Hd | apply gtb_false in Hd]);
    repeat split; intros; try discriminate; try tauto; try lra.
Qed.

(* ====================================================================== *)
(** ** The repetition penalty *)

(** C8: a candidate whose id is in both [recentlyPlayed] and
    [recentlySkipped] gets the penalty -80, and the penalty is -100 exactly
    when the id is in [recentlySkipped] and not in [recentlyPlayed]. *)
Theorem calculateRepetitionPenalty_order (this : Engine) (candidate : Song.t)
    (context : SessionContext) :
  let played := In (Song.id candidate) (recentlyPlayed (userProfile this)) in
  let skipped := In (Song.id candidate) (recentlySkipped (userProfile this)) in
  (played /\ skipped -> calculateRepetitionPenalty this candidate context = -80) /\
  (calculateRepetitionPenalty this candidate context = -100 <->
     skipped /\ ~ played).
Proof.
  cbv zeta. unfold calculateRepetitionPenalty.
  rewrite <- !Set_has_In.
  destruct (Js.Set_has (recentlyPlayed (userProfile this)) (Song.id candidate));
    destruct (Js.Set_has (recentlySkipped (userProfile this)) (Song.id candidate));
    try destruct (Js.includes _ _);
    repeat split; intros; try discriminate; try tauto;
    try (destruct H; discriminate); try (destruct H; congruence).
Qed.

(* ====================================================================== *)
(** ** Discovery openness *)

Lemma record_history now event this :
  listeningHistory (recordListeningEvent now event this) =
  let pushed := (listeningHistory this ++ [event])%list in
  if Nat.ltb HISTORY_WINDOW (length pushed) then tl pushed else pushed.
Proof. reflexivity. Qed.

Lemma record_discoveryOpenness now event this :
  discoveryOpenness (userProfile (recordListeningEvent now event this)) =
  let d := discoveryOpenness (userProfile this) in
  let skips :=
    recentSkips (listeningHistory (recordListeningEvent now event this)) in
  if Nat.ltb 5 skips then Js.Math_max 0.1 (d -! 0.05)
  else if Nat.ltb skips 2 then Js.Math_min 0.5 (d +! 0.05)
  else d.
Proof.
  unfold recordListeningEvent at 1. rewrite update_discoveryOpenness.
  reflexivity.
Qed.

(** One event keeps [discoveryOpenness] within its bounds. *)
Lemma record_keeps_bounds now event this :
  0.1 <= discoveryOpenness (userProfile this) <= 0.5 ->
  0.1 <= discoveryOpenness (userProfile (recordListeningEvent now event this))
         <= 0.5.
Proof.
  intros H. rewrite record_discoveryOpenness. cbv zeta.
  destruct (Nat.ltb 5 _); [|destruct (Nat.ltb _ 2)].
  - destruct (Math_max_cases 0.1
                (discoveryOpenness (userProfile this) -! 0.05))
      as [[Hc E] | [Hc E]]; rewrite E; to_Q; lra.
  - destruct (Math_min_cases 0.5
                (discoveryOpenness (userProfile this) +! 0.05))
      as [[Hc E] | [Hc E]]; rewrite E; to_Q; lra.
  - exact H.
Qed.

Lemma reachable_bounds P this :
  reachable_with P this ->
  0.1 <= discoveryOpenness (userProfile this) <= 0.5.
Proof.
  induction 1 as [now | now event this _ IH _].
  - simpl. lra.
  - now apply record_keeps_bounds.
Qed.

(** C5: on every engine reached from a fresh one by recording events,
    [discoveryOpenness] lies in [0.1, 0.5], and recording one more event
    keeps it there; with [skips] the number of skips among the last ten
    history entries (the new event included), the event lowers it by 0.05
    when [skips > 5] (to 0.1 at least), raises it by 0.05 when [skips < 2]
    (to 0.5 at most), and leaves it as it is otherwise. *)
Theorem discoveryOpenness_bounds_and_step (this : Engine) :
  reachable this ->
  let d := discoveryOpenness (userProfile this) in
  0.1 <= d <= 0.5 /\
  forall now event,
    let next := recordListeningEvent now event this in
    let d' := discoveryOpenness (userProfile next) in
    let skips :=
      length (filter is_skip (Js.slice_last 10 (listeningHistory next))) in
    0.1 <= d' <= 0.5 /\
    ((5 < skips)%nat ->
       (0.1 <= d - 0.05 -> d' == d - 0.05) /\
       (d - 0.05 < 0.1 -> d' == 0.1)) /\
    ((skips < 2)%nat ->
       (d + 0.05 <= 0.5 -> d' == d + 0.05) /\
       (0.5 < d + 0.05 -> d' == 0.5)) /\
    ((2 <= skips <= 5)%nat -> d' = d).
Proof.
  intros Hreach. cbv zeta.
  pose proof (reachable_bounds _ _ Hreach) as Hb.
  split; [exact Hb|]. intros now event.
  split; [now apply record_keeps_bounds|].
  rewrite record_discoveryOpenness. cbv zeta.
  change (length (filter is_skip
            (Js.slice_last 10
               (listeningHistory (recordListeningEvent now event this)))))
    with (recentSkips (listeningHistory (recordListeningEvent now event this))).
  set (skips := recentSkips _).
  destruct (Nat.ltb 5 skips) eqn:E5;
    [apply Nat.ltb_lt in E5 | apply Nat.ltb_ge in E5];
    [|destruct (Nat.ltb skips 2) eqn:E2;
        [apply Nat.ltb_lt in E2 | apply Nat.ltb_ge in E2]].
  - repeat split; intros; try lia.
    + destruct (Math_max_cases 0.1
                  (discoveryOpenness (userProfile this) -! 0.05))
        as [[Hc E] | [Hc E]]; rewrite E; to_Q; lra.
    + destruct (Math_max_cases 0.1
                  (discoveryOpenness (userProfile this) -! 0.05))
        as [[Hc E] | [Hc E]]; rewrite E; to_Q; lra.
  - repeat split; intros; try lia.
    + destruct (Math_min_cases 0.5
                  (discoveryOpenness (userProfile this) +! 0.05))
        as [[Hc E] | [Hc E]]; rewrite E; to_Q; lra.
    + destruct (Math_min_cases 0.5
                  (discoveryOpenness (userProfile this) +! 0.05))
        as [[Hc E] | [Hc E]]; rewrite E; to_Q; lra.
  - repeat split; intros; try lia; reflexivity.
Qed.

Lemma after_one_like_reachable : reachable after_one_like.
Proof. apply reach_record; [apply reach_new | exact I]. Qed.

Lemma discoveryOpenness_bounds_and_step_witness :
  reachable after_one_like /\
  0.1 <= discoveryOpenness (userProfile after_one_like) <= 0.5.
Proof.
  split; [exact after_one_like_reachable|].
  exact (proj1 (discoveryOpenness_bounds_and_step after_one_like
                  after_one_like_reachable)).
Defined.

(* ====================================================================== *)
(** ** The clamp of the affinity scores *)

(** C2 (counterexample): after the single event [rewound_play] on a fresh
    engine the stored score of its artist is -3: the [play] branch adds
    [completionRatio * 1.5] without a clamp and the ratio is -2. *)
Lemma negative_duration_escapes_clamp :
  reachable (recordListeningEvent 1 rewound_play (new_engine 0)) /\
  In ("Artist X"%string, -3 # 1)
     (artistPreferences
        (userProfile (recordListeningEvent 1 rewound_play (new_engine 0)))) /\
  ~ nonneg_scores (recordListeningEvent 1 rewound_play (new_engine 0)).
Proof.
  assert (Hin : In ("Artist X"%string, -3 # 1)
     (artistPreferences
        (userProfile (recordListeningEvent 1 rewound_play (new_engine 0))))).
  { vm_compute. left. reflexivity. }
  split; [apply reach_record; [apply reach_new | exact I]|].
  split; [exact Hin|].
  intros [Ha _]. specialize (Ha _ _ Hin). revert Ha. unfold Qle. simpl. lia.
Qed.

Lemma completionRatio_nonneg event :
  durations_nonneg event -> 0 <= completionRatio event.
Proof.
  intros [Hl Hs]. unfold completionRatio.
  destruct (ListeningEvent.listenDuration event) as [l|]; simpl; [|lra].
  destruct (ListeningEvent.songDuration event) as [s|]; simpl;
    [|rewrite andb_false_r; lra].
  destruct (Js.truthy l && Js.truthy s); [|lra].
  to_Q. specialize (Hl l eq_refl). specialize (Hs s eq_refl).
  unfold Qdiv. apply Qmult_le_0_compat; [exact Hl|].
  now apply Qinv_le_0_compat.
Qed.

Lemma artist_score_after_nonneg event current :
  durations_nonneg event -> 0 <= current ->
  0 <= artist_score_after event current.
Proof.
  intros Hd Hc. pose proof (completionRatio_nonneg event Hd) as Hr.
  unfold artist_score_after.
  destruct (ListeningEvent.action event); to_Q;
    try lra; apply Math_max_lower.
Qed.

Lemma genre_score_after_nonneg event current :
  0 <= genre_score_after event current.
Proof. apply Math_max_lower. Qed.

Lemma Map_set_nonneg (m : Js.Map Js.num) k v :
  nonneg_values m -> 0 <= v -> nonneg_values (Js.Map_set m k v).
Proof.
  intros Hm Hv k0 v0 Hin.
  destruct (Map_set_In _ _ _ _ _ Hin) as [H | [= _ ->]]; [eauto | exact Hv].
Qed.

Lemma Map_get_nonneg (m : Js.Map Js.num) k :
  nonneg_values m -> 0 <= Js.or_zero (Js.Map_get m k).
Proof.
  intros Hm. apply or_zero_nonneg. intros v Hv.
  apply Map_get_In in Hv. eauto.
Qed.

Lemma record_keeps_nonneg now event this :
  durations_nonneg event -> nonneg_scores this ->
  nonneg_scores (recordListeningEvent now event this).
Proof.
  intros Hd [Ha Hg]. unfold recordListeningEvent, nonneg_scores.
  rewrite update_artistPreferences, update_genrePreferences. simpl userProfile.
  split.
  - apply Map_set_nonneg; [exact Ha|].
    apply artist_score_after_nonneg; [exact Hd|].
    now apply Map_get_nonneg.
  - destruct (Js.truthy_str (ListeningEvent.genre event)); [|exact Hg].
    apply Map_set_nonneg; [exact Hg | apply genre_score_after_nonneg].
Qed.

(** C2 (amended): on every engine reached from a fresh one by recording
    events whose durations, where given, are not negative, every stored
    artist score and every stored genre score is [>= 0]. *)
Theorem affinity_scores_nonneg (this : Engine) :
  reachable_with durations_nonneg this -> nonneg_scores this.
Proof.
  induction 1 as [now | now event this _ IH Hd].
  - split; intros k v [].
  - now apply record_keeps_nonneg.
Qed.

Lemma early_skip_durations : durations_nonneg early_skip.
Proof.
  split; intros x [= <-]; unfold Qle; simpl; lia.
Qed.

Lemma affinity_scores_nonneg_witness :
  nonneg_scores (recordListeningEvent 2 early_skip (new_engine 0)).
Proof.
  apply affinity_scores_nonneg.
  apply reach_record; [apply reach_new | exact early_skip_durations].
Defined.

(* ====================================================================== *)
(** ** Sorting *)

Section Sorting.

Context {A : Type}.
Variable cmp : A -> A -> Js.num.

Lemma sort_insert_perm x xs : Permutation (Js.sort_insert cmp x xs) (x :: xs).
Proof.
  induction xs as [|y ys IH]; simpl; [reflexivity|].
  destruct (Qle_bool (cmp x y) 0); [reflexivity|].
  rewrite IH. apply perm_swap.
Qed.

Lemma sort_perm xs : Permutation (Js.sort cmp xs) xs.
Proof.
  induction xs as [|x xs IH]; simpl; [reflexivity|].
  rewrite sort_insert_perm. now apply perm_skip.
Qed.

Lemma sort_length xs : length (Js.sort cmp xs) = length xs.
Proof. apply Permutation_length, sort_perm. Qed.

Hypothesis before_total : forall a b, before cmp a b \/ before cmp b a.
Hypothesis before_trans :
  forall a b c, before cmp a b -> before cmp b c -> before cmp a c.

Lemma sort_insert_sorted x xs :
  StronglySorted (before cmp) xs ->
  StronglySorted (before cmp) (Js.sort_insert cmp x xs).
Proof.
  induction 1 as [|y ys Hs IH Hall]; simpl.
  - repeat constructor.
  - destruct (Qle_bool (cmp x y) 0) eqn:E.
    + apply Qle_bool_iff in E. constructor; [now constructor|].
      constructor; [exact E|].
      eapply Forall_impl; [|exact Hall]. intros z Hz. now apply before_trans with y.
    + assert (Hyx : before cmp y x).
      { destruct (before_total x y) as [H | H]; [|exact H].
        apply Qle_bool_iff in H. unfold before in *. congruence. }
      constructor; [exact IH|].
      rewrite Forall_forall. intros z Hz.
      apply (Permutation_in _ (sort_insert_perm x ys)) in Hz.
      destruct Hz as [<- | Hz]; [exact Hyx|].
      rewrite Forall_forall in Hall. now apply Hall.
Qed.

Lemma sort_sorted xs : StronglySorted (before cmp) (Js.sort cmp xs).
Proof.
  induction xs as [|x xs IH]; simpl; [constructor|].
  now apply sort_insert_sorted.
Qed.

End Sorting.

Lemma firstn_In {A} n (xs : list A) x : In x (firstn n xs) -> In x xs.
Proof.
  revert n. induction xs as [|y ys IH]; intros [|n]; simpl; try tauto.
  intros [H | H]; [now left | right; eauto].
Qed.

Lemma skipn_In {A} n (xs : list A) x : In x (skipn n xs) -> In x xs.
Proof.
  revert n. induction xs as [|y ys IH]; intros [|n]; simpl; try tauto.
  intros H. right. eauto.
Qed.

Lemma StronglySorted_firstn {A} (R : A -> A -> Prop) n xs :
  StronglySorted R xs -> StronglySorted R (firstn n xs).
Proof.
  intros H. revert n. induction H as [|x xs Hs IH Hall]; intros [|n]; simpl;
    try constructor.
  - apply IH.
  - rewrite Forall_forall in *. intros y Hy. apply Hall.
    eapply firstn_In; eauto.
Qed.

Lemma StronglySorted_split {A} (R : A -> A -> Prop) n xs :
  StronglySorted R xs ->
  forall a b, In a (firstn n xs) -> In b (skipn n xs) -> R a b.
Proof.
  intros H. revert n. induction H as [|x xs Hs IH Hall]; intros [|n] a b; simpl;
    try tauto.
  intros [<- | Ha] Hb.
  - rewrite Forall_forall in Hall. apply Hall. eapply skipn_In; eauto.
  - eapply IH; eauto.
Qed.

(* ====================================================================== *)
(** ** The favourite artists *)

Lemma by_score_desc_before a b : before by_score_desc a b <-> snd b <= snd a.
Proof.
  unfold before, by_score_desc. to_Q. split; intros; lra.
Qed.

(** C6: after every recorded event, [favoriteArtists] lists the artists of
    the first ten (all, when there are fewer) entries of the artist scores
    sorted by score, highest first: the entries split into [top], whose
    artists are the favourites in this order, and [rest], no entry of which
    has a higher score than an entry of [top]. The scores are those the same
    event has just stored. *)
Theorem favoriteArtists_top10 (now : Z) (event : ListeningEvent.t)
    (this : Engine) :
  let next := recordListeningEvent now event this in
  let scores := Js.Map_entries (artistPreferences (userProfile next)) in
  exists top rest,
    Permutation (top ++ rest) scores /\
    favoriteArtists (userProfile next) = List.map fst top /\
    length top = Nat.min 10 (length scores) /\
    StronglySorted (fun a b => snd b <= snd a) top /\
    (forall a b, In a top -> In b rest -> snd b <= snd a).
Proof.
  cbv zeta. unfold recordListeningEvent. rewrite update_favoriteArtists.
  set (scores := Js.Map_entries _).
  set (sorted := Js.sort by_score_desc scores).
  assert (Hs : StronglySorted (fun a b => snd b <= snd a) sorted).
  { assert (H : StronglySorted (before by_score_desc) sorted).
    { apply sort_sorted.
      - intros a b. rewrite !by_score_desc_before.
        destruct (Qlt_le_dec (snd a) (snd b)); [right; lra | left; lra].
      - intros a b c. rewrite !by_score_desc_before. intros; lra. }
    clear -H. induction H; constructor; [assumption|].
    eapply Forall_impl; [|eassumption].
    intros c Hc. now apply by_score_desc_before. }
  exists (firstn 10 sorted), (skipn 10 sorted).
  repeat split.
  - rewrite firstn_skipn. apply sort_perm.
  - rewrite length_firstn. unfold sorted. now rewrite sort_length.
  - now apply StronglySorted_firstn.
  - intros a b Ha Hb. exact (StronglySorted_split _ _ _ Hs a b Ha Hb).
Qed.

(* ====================================================================== *)
(** ** The recommender *)

(** *** Lists without repeats under a key *)

Lemma NoDup_map_injective {A B} (f : A -> B) (l : list A) x y :
  NoDup (List.map f l) -> In x l -> In y l -> f x = f y -> x = y.
Proof.
  induction l as [|a l IH]; simpl; [tauto|].
  intros H Hx Hy E. apply NoDup_cons_iff in H. destruct H as [Ha Hl].
  destruct Hx as [-> | Hx], Hy as [-> | Hy]; auto.
  - exfalso. apply Ha. rewrite E. now apply in_map.
  - exfalso. apply Ha. rewrite <- E. now apply in_map.
Qed.

Lemma filter_split_perm {A} (P : A -> bool) (l : list A) :
  Permutation (filter P l ++ filter (fun x => negb (P x)) l) l.
Proof.
  induction l as [|a l IH]; simpl; [reflexivity|].
  destruct (P a); simpl.
  - now apply perm_skip.
  - rewrite <- Permutation_middle. now apply perm_skip.
Qed.

Lemma NoDup_map_prefixes {A B} (f : A -> B) (xs ys : list A) a b :
  NoDup (List.map f (xs ++ ys)) ->
  NoDup (List.map f (firstn a xs ++ firstn b ys)).
Proof.
  intros H.
  rewrite <- (firstn_skipn a xs), <- (firstn_skipn b ys) in H.
  rewrite !map_app in *.
  set (x1 := List.map f (firstn a xs)) in *.
  set (x2 := List.map f (skipn a xs)) in *.
  set (y1 := List.map f (firstn b ys)) in *.
  set (y2 := List.map f (skipn b ys)) in *.
  assert (Hp : Permutation ((x1 ++ x2) ++ y1 ++ y2) (x2 ++ (x1 ++ y1) ++ y2)).
  { rewrite <- !app_assoc. rewrite (app_assoc x1 x2), (app_assoc x2 x1).
    apply Permutation_app_tail, Permutation_app_comm. }
  apply (Permutation_NoDup Hp) in H.
  apply NoDup_app_remove_l in H. now apply NoDup_app_remove_r in H.
Qed.

(** Two prefixes of the two sides of a partition have no repeated key. *)
Lemma NoDup_map_partition {A B} (f : A -> B) (P : A -> bool) (l : list A) a b :
  NoDup (List.map f l) ->
  NoDup (List.map f (firstn a (filter P l)
                     ++ firstn b (filter (fun x => negb (P x)) l))).
Proof.
  intros H. apply NoDup_map_prefixes.
  eapply Permutation_NoDup; [|exact H].
  symmetry. apply Permutation_map, filter_split_perm.
Qed.

Lemma NoDup_map_filter {A B} (f : A -> B) (P : A -> bool) (l : list A) :
  NoDup (List.map f l) -> NoDup (List.map f (filter P l)).
Proof.
  induction l as [|a l IH]; simpl; [auto|].
  intros H. apply NoDup_cons_iff in H. destruct H as [Ha Hl].
  destruct (P a); simpl; [|auto].
  constructor; [|auto].
  intros Hin. apply Ha. apply in_map_iff in Hin. destruct Hin as (x & E & Hx).
  apply filter_In in Hx. rewrite <- E. apply in_map. tauto.
Qed.

Lemma NoDup_map_firstn {A B} (f : A -> B) n (l : list A) :
  NoDup (List.map f l) -> NoDup (List.map f (firstn n l)).
Proof.
  intros H. rewrite <- (firstn_skipn n l), map_app in H.
  now apply NoDup_app_remove_r in H.
Qed.

Lemma includes_ref_In (results : list objref) r :
  includes_ref results r = true <-> In r results.
Proof.
  unfold includes_ref. rewrite existsb_exists. split.
  - intros (y & Hy & E). apply Nat.eqb_eq in E. now subst.
  - intros H. exists r. split; [assumption | apply Nat.eqb_refl].
Qed.

(** What is left of [l] once the elements picked in [sel] are filtered out
    by reference. *)
Lemma unpicked_length {A} (f : A -> objref) (l sel : list A) :
  NoDup (List.map f l) -> NoDup (List.map f sel) -> incl sel l ->
  length (filter (fun s => negb (includes_ref (List.map f sel) (f s))) l) =
  (length l - length sel)%nat.
Proof.
  intros Hl Hsel Hincl.
  pose proof (filter_length (fun s => includes_ref (List.map f sel) (f s)) l) as Hlen.
  assert (Hp : Permutation
                 (List.map f (filter (fun s => includes_ref (List.map f sel) (f s)) l))
                 (List.map f sel)).
  { apply NoDup_Permutation; [now apply NoDup_map_filter | exact Hsel |].
    intros r. rewrite !in_map_iff. split.
    - intros (s & <- & Hs). apply filter_In in Hs. destruct Hs as [_ Hs].
      apply includes_ref_In in Hs. now apply in_map_iff in Hs.
    - intros (s & <- & Hs). exists s. split; [reflexivity|].
      apply filter_In. split; [now apply Hincl|].
      apply includes_ref_In. now apply in_map. }
  apply Permutation_length in Hp. rewrite !length_map in Hp.
  cbv beta in Hlen. lia.
Qed.

(** *** The blend *)

Section Blend.

Variable heap : Heap.
Variable this : Engine.
Variable context : SessionContext.
Variable candidates : list objref.
Variable count : Z.

Local Abbreviation scored_candidates :=
  (scored_candidates heap this context candidates).
Local Abbreviation picked := (picked heap this context candidates count).
Local Abbreviation backfill := (backfill heap this context candidates count).

Lemma scored_songs : Permutation (List.map song scored_candidates) candidates.
Proof.
  unfold scored_candidates.
  rewrite (Permutation_map song (sort_perm by_total_desc _)).
  rewrite map_map. simpl. now rewrite map_id.
Qed.

Lemma scored_length : length scored_candidates = length candidates.
Proof.
  rewrite <- (Permutation_length scored_songs). now rewrite length_map.
Qed.

(** The two buckets are complementary. *)
Lemma is_discovery_negb s :
  is_discovery heap this s = negb (is_familiar heap this s).
Proof.
  unfold is_discovery, is_familiar, Js.gtb, Js.ltb, Js.leb.
  now rewrite negb_orb, negb_involutive.
Qed.

Lemma targetFamiliar_range :
  (0 <= count)%Z -> 0 <= discoveryOpenness (userProfile this) <= 1 ->
  (0 <= targetFamiliar this count <= count)%Z.
Proof.
  intros Hc Hd. unfold targetFamiliar, Js.Math_ceil.
  set (d := discoveryOpenness (userProfile this)) in *.
  assert (Hq : 0 <= inject_Z count) by (unfold Qle; simpl; lia).
  assert (E : inject_Z count *! (1 -! d) == inject_Z count * (1 - d))
    by (to_Q; reflexivity).
  rewrite E.
  split.
  - rewrite <- (Qceiling_Z 0). apply Qceiling_resp_le.
    apply Qmult_le_0_compat; lra.
  - rewrite <- (Qceiling_Z count) at 2. apply Qceiling_resp_le.
    rewrite <- (Qmult_1_r (inject_Z count)) at 2.
    rewrite (Qmult_comm _ (1 - d)), (Qmult_comm _ 1).
    apply Qmult_le_compat_r; lra.
Qed.

Lemma recommendNextSongs_picked :
  recommendNextSongs heap this candidates context count =
  List.map song (picked ++ backfill).
Proof.
  unfold recommendNextSongs. cbv zeta. fold scored_candidates.
  rewrite (filter_ext _ _ is_discovery_negb).
  rewrite <- !map_app. fold picked.
  rewrite (length_map song picked). unfold backfill.
  destruct (Z.of_nat (length picked) <? count)%Z.
  - now rewrite map_app.
  - now rewrite app_nil_r.
Qed.

Lemma picked_incl : incl picked scored_candidates.
Proof.
  intros s Hs. unfold picked in Hs. apply in_app_or in Hs.
  destruct Hs as [Hs | Hs]; apply firstn_In in Hs; apply filter_In in Hs; tauto.
Qed.

Lemma backfill_incl : incl backfill scored_candidates.
Proof.
  intros s Hs. unfold backfill, Js.slice_first in Hs.
  destruct (Z.of_nat (length picked) <? count)%Z; [|destruct Hs].
  apply firstn_In in Hs. apply filter_In in Hs. tauto.
Qed.

Lemma backfill_unpicked s : In s backfill -> ~ In (song s) (List.map song picked).
Proof.
  intros Hs. unfold backfill, Js.slice_first in Hs.
  destruct (Z.of_nat (length picked) <? count)%Z; [|destruct Hs].
  apply firstn_In in Hs. apply filter_In in Hs. destruct Hs as [_ Hs].
  apply negb_true_iff in Hs. rewrite <- includes_ref_In. congruence.
Qed.

Lemma picked_length :
  (0 <= count)%Z -> 0 <= discoveryOpenness (userProfile this) <= 1 ->
  (Z.of_nat (length picked) <= count)%Z /\
  (length picked <= length candidates)%nat.
Proof.
  intros Hc Hd. pose proof (targetFamiliar_range Hc Hd) as Ht.
  pose proof (filter_length (is_familiar heap this) scored_candidates) as Hf.
  rewrite scored_length in Hf.
  unfold picked, targetDiscovery. rewrite length_app, !length_firstn. lia.
Qed.

(** No key is repeated among the picked and backfilled candidates when no
    key is repeated among all of them. *)
Lemma results_NoDup {B} (key : objref -> B) :
  NoDup (List.map key candidates) ->
  NoDup (List.map (fun s => key (song s)) (picked ++ backfill)).
Proof.
  intros H.
  assert (Hs : NoDup (List.map (fun s => key (song s)) scored_candidates)).
  { rewrite <- (map_map song key).
    eapply Permutation_NoDup; [|exact H].
    symmetry. apply Permutation_map, scored_songs. }
  rewrite map_app. apply NoDup_app. repeat split.
  - unfold picked. now apply NoDup_map_partition.
  - unfold backfill, Js.slice_first.
    destruct (Z.of_nat (length picked) <? count)%Z; [|constructor].
    now apply NoDup_map_firstn, NoDup_map_filter.
  - intros k Hp Hb.
    apply in_map_iff in Hp. destruct Hp as (x & Ex & Hx).
    apply in_map_iff in Hb. destruct Hb as (y & Ey & Hy).
    assert (x = y).
    { apply (NoDup_map_injective (fun s => key (song s)) scored_candidates);
        [exact Hs | now apply picked_incl | now apply backfill_incl | congruence]. }
    subst y. apply (backfill_unpicked x Hy). now apply in_map.
Qed.

Lemma results_length_exact :
  (0 <= count)%Z -> 0 <= discoveryOpenness (userProfile this) <= 1 ->
  NoDup candidates ->
  Z.of_nat (length (picked ++ backfill)) =
  Z.min count (Z.of_nat (length candidates)).
Proof.
  intros Hc Hd Hnd. destruct (picked_length Hc Hd) as [Hp1 Hp2].
  pose proof (targetFamiliar_range Hc Hd) as Ht.
  pose proof (filter_length (is_familiar heap this) scored_candidates) as Hf.
  rewrite scored_length in Hf.
  rewrite length_app. unfold backfill, Js.slice_first.
  destruct (Z.of_nat (length picked) <? count)%Z eqn:E;
    [apply Z.ltb_lt in E | apply Z.ltb_ge in E]; [|simpl; lia].
  rewrite length_firstn, unpicked_length.
  - rewrite scored_length. lia.
  - eapply Permutation_NoDup; [|exact Hnd]. symmetry. apply scored_songs.
  - unfold picked. apply NoDup_map_partition.
    eapply Permutation_NoDup; [|exact Hnd]. symmetry. apply scored_songs.
  - apply picked_incl.
Qed.

Lemma results_length_le :
  (0 <= count)%Z -> 0 <= discoveryOpenness (userProfile this) <= 1 ->
  (Z.of_nat (length (picked ++ backfill)) <= count)%Z.
Proof.
  intros Hc Hd. destruct (picked_length Hc Hd) as [Hp1 Hp2].
  rewrite length_app. unfold backfill, Js.slice_first.
  destruct (Z.of_nat (length picked) <? count)%Z eqn:E;
    [apply Z.ltb_lt in E | apply Z.ltb_ge in E]; [|simpl; lia].
  rewrite length_firstn. lia.
Qed.

End Blend.

(** C1 (amended): on an engine whose [discoveryOpenness] lies in [0, 1] (as
    it does after any sequence of recorded events) and for [count >= 0],
    [recommendNextSongs] returns at most [count] songs; when the candidates
    are pairwise distinct objects it returns exactly
    [min(count, |candidates|)] songs; and when the candidates have pairwise
    distinct track ids no two returned songs share a track id. *)
Theorem recommendNextSongs_size (heap : Heap) (this : Engine)
    (candidates : list objref) (context : SessionContext) (count : Z) :
  (0 <= count)%Z ->
  0 <= discoveryOpenness (userProfile this) <= 1 ->
  let results := recommendNextSongs heap this candidates context count in
  (Z.of_nat (length results) <= count)%Z /\
  (NoDup candidates ->
     Z.of_nat (length results) = Z.min count (Z.of_nat (length candidates))) /\
  (NoDup (track_ids heap candidates) -> NoDup (track_ids heap results)).
Proof.
  intros Hc Hd. cbv zeta. rewrite recommendNextSongs_picked.
  rewrite length_map. repeat split.
  - now apply results_length_le.
  - now apply results_length_exact.
  - intros Hids. unfold track_ids. rewrite map_map.
    exact (results_NoDup heap this context candidates count
             (fun r => Song.id (heap r)) Hids).
Qed.

(** The invariant of the event recorder gives the bound the blend needs. *)
Lemma reachable_openness_unit this :
  reachable this -> 0 <= discoveryOpenness (userProfile this) <= 1.
Proof. intros H. apply reachable_bounds in H. lra. Qed.

Lemma recommendNextSongs_size_witness :
  let results :=
    recommendNextSongs library after_one_like [0; 1; 2]%nat idle_context 2 in
  (Z.of_nat (length results) <= 2)%Z /\
  (NoDup [0; 1; 2]%nat -> Z.of_nat (length results) = Z.min 2 (Z.of_nat 3)) /\
  (NoDup (track_ids library [0; 1; 2]%nat) -> NoDup (track_ids library results)).
Proof.
  apply (recommendNextSongs_size library after_one_like [0; 1; 2]%nat
           idle_context 2).
  - lia.
  - split; apply Qle_bool_iff; vm_compute; reflexivity.
Defined.

(** An engine that has imported a profile whose [discoveryOpenness] is 2
    returns two songs for [count = 1]: the target of the familiar bucket is
    then -1 and that of the discovery bucket 2. *)
Lemma recommendNextSongs_oversized_after_import :
  exists this,
    import_into JsonText.parse
      (JsonText.stringify
         (Json.Obj [("profile"%string,
                     profile_json (mkProfile [] [] [] [] [] [] 2 0))]))
      (new_engine 0)
    = (Json.Normal tt, mkWorld (InModel this) []) /\
    targetFamiliar this 1 = (-1)%Z /\
    targetDiscovery this 1 = 2%Z /\
    recommendNextSongs library this [0; 1; 2]%nat idle_context 1 = [0; 1]%nat.
Proof.
  eexists. split; [vm_compute; reflexivity|].
  repeat split; vm_compute; reflexivity.
Qed.

(** C1 (counterexample): given two candidate objects with the same track id
    and [count = 2], a fresh engine returns both: the backfill tells songs
    apart by reference ([results.includes(s.song)]), not by id. *)
Lemma recommendNextSongs_repeats_an_id :
  recommendNextSongs twins (new_engine 0) [0; 1]%nat idle_context 2
    = [0; 1]%nat /\
  (0 <= 2)%Z /\
  ~ NoDup (track_ids twins
             (recommendNextSongs twins (new_engine 0) [0; 1]%nat idle_context 2)).
Proof.
  assert (E : recommendNextSongs twins (new_engine 0) [0; 1]%nat idle_context 2
              = [0; 1]%nat) by (vm_compute; reflexivity).
  split; [exact E|]. split; [lia|].
  rewrite E. intros H. apply NoDup_cons_iff in H. apply (proj1 H). now left.
Qed.

(* ====================================================================== *)
(** ** Export and import *)

(** *** The keys of the two score maps are never repeated *)

Lemma reachable_distinct_keys P this :
  reachable_with P this -> distinct_keys this.
Proof.
  induction 1 as [now | now event this _ [IHa IHg] _].
  - split; constructor.
  - unfold distinct_keys, recordListeningEvent.
    rewrite update_artistPreferences, update_genrePreferences. simpl userProfile.
    split; [now apply Map_set_NoDup|].
    destruct (Js.truthy_str (ListeningEvent.genre event));
      [now apply Map_set_NoDup | exact IHg].
Qed.

(** *** Reading back what the export wrote *)

Lemma all_some_map {A B} (f : A -> option B) (g : A -> B) (l : list A) :
  (forall x, f x = Some (g x)) ->
  Json.all_some (List.map f l) = Some (List.map g l).
Proof.
  intros H. induction l as [|x l IH]; simpl; [reflexivity|].
  now rewrite H, IH.
Qed.

Lemma new_Map_entries_json (m : Js.Map Js.num) :
  Json.new_Map (Some (entries_json m)) =
  Json.Normal (Json.Typed (Js.Map_of_entries (Js.Map_entries m))).
Proof.
  unfold entries_json, Json.new_Map, Js.Map_entries.
  rewrite map_map.
  rewrite (all_some_map _
             (fun e : string * Js.num =>
                (Some (Json.Str (fst e)), Some (Json.Num (snd e)))))
    by reflexivity.
  rewrite map_map.
  rewrite (all_some_map _ (fun e : string * Js.num => e))
    by (intros [k v]; reflexivity).
  now rewrite map_id.
Qed.

Lemma string_array_strings (l : list string) :
  Json.string_array (Some (Json.Arr (List.map Json.Str l))) = Json.Typed l.
Proof.
  unfold Json.string_array.
  rewrite map_map, (all_some_map _ (fun x : string => x)) by reflexivity.
  now rewrite map_id.
Qed.

Section BlobFacts.

Variable JSON_parse : string -> option Json.value.

(** A text that parses to an object whose [profile] is the export of [p]
    imports without an error and stores the four fields of [p]. *)
Lemma import_of_profile_json data fields p this :
  JSON_parse data = Some (Json.Obj fields) ->
  Json.lookup fields "profile" = Some (profile_json p) ->
  import_into JSON_parse data this =
  (Json.Normal tt, mkWorld (InModel (imported p this)) []).
Proof.
  intros Hparse Hprofile.
  unfold import_into, importProfile, try_catch, importProfile_body, bind, eval,
    parse.
  rewrite Hparse. cbn [Json.get]. rewrite Hprofile.
  unfold profile_json. cbn [Json.get Json.lookup String.eqb Ascii.eqb Bool.eqb].
  rewrite !new_Map_entries_json, string_array_strings.
  reflexivity.
Qed.

(** Whatever the text, [importProfile] completes normally. *)
Lemma importProfile_normal data w :
  exists w', importProfile JSON_parse data w = (Json.Normal tt, w').
Proof.
  unfold importProfile, try_catch.
  destruct (importProfile_body JSON_parse data w) as [[[]|e] w'].
  - now exists w'.
  - unfold console_error. eauto.
Qed.

End BlobFacts.

(** C3: on an engine reached from a fresh one by recording events, and with
    a [JSON.parse] that reads the exported text back as the exported object,
    [importProfile(exportProfile())] returns without an error and leaves
    [artistPreferences], [genrePreferences], [favoriteArtists] and
    [discoveryOpenness] as they were: the same entries in the same order,
    the same numbers. *)
Theorem import_export_round_trip
    (JSON_parse : string -> option Json.value)
    (JSON_stringify : Json.value -> string) (this : Engine) :
  reachable this ->
  JSON_parse (exportProfile JSON_stringify this) = Some (export_value this) ->
  exists after,
    import_into JSON_parse (exportProfile JSON_stringify this) this =
      (Json.Normal tt, mkWorld (InModel after) []) /\
    artistPreferences (userProfile after) = artistPreferences (userProfile this) /\
    genrePreferences (userProfile after) = genrePreferences (userProfile this) /\
    favoriteArtists (userProfile after) = favoriteArtists (userProfile this) /\
    discoveryOpenness (userProfile after) = discoveryOpenness (userProfile this).
Proof.
  intros Hreach Hparse.
  destruct (reachable_distinct_keys _ _ Hreach) as [Ha Hg].
  exists (imported (userProfile this) this). split.
  - eapply import_of_profile_json; [exact Hparse | reflexivity].
  - simpl. rewrite !Map_of_entries_id by assumption. repeat split.
Qed.

Lemma import_export_round_trip_witness :
  exists after,
    import_into JsonText.parse
      (exportProfile JsonText.stringify after_one_like) after_one_like =
      (Json.Normal tt, mkWorld (InModel after) []) /\
    artistPreferences (userProfile after) =
      artistPreferences (userProfile after_one_like) /\
    genrePreferences (userProfile after) =
      genrePreferences (userProfile after_one_like) /\
    favoriteArtists (userProfile after) =
      favoriteArtists (userProfile after_one_like) /\
    discoveryOpenness (userProfile after) =
      discoveryOpenness (userProfile after_one_like).
Proof.
  apply (import_export_round_trip JsonText.parse JsonText.stringify
           after_one_like after_one_like_reachable).
  vm_compute. reflexivity.
Defined.

(** *** Malformed input *)

(** C9: [importProfile] completes normally on every text and in every
    state; a text that is not JSON, or a JSON object without a [profile],
    leaves the engine as it was and logs the error; and a failure is not
    rolled back: on [half_good_text] the import replaces
    [artistPreferences], fails on [genrePreferences], logs the [TypeError]
    and keeps the other fields of the engine as they were. *)
Theorem importProfile_fails_silently :
  (forall (JSON_parse : string -> option Json.value) data w,
     exists w', importProfile JSON_parse data w = (Json.Normal tt, w')) /\
  (forall (JSON_parse : string -> option Json.value) data this,
     JSON_parse data = None ->
     import_into JSON_parse data this =
     (Json.Normal tt, mkWorld (InModel this) [Json.SyntaxError])) /\
  (forall (JSON_parse : string -> option Json.value) data fields this,
     JSON_parse data = Some (Json.Obj fields) ->
     Json.lookup fields "profile" = None ->
     import_into JSON_parse data this =
     (Json.Normal tt, mkWorld (InModel this) [Json.TypeError])) /\
  JsonText.parse half_good_text =
    Some (Json.Obj
            [("profile"%string,
              Json.Obj [("artistPreferences"%string,
                         Json.Arr [Json.Arr [Json.Str "Artist Z"; Json.Num 9]]);
                        ("genrePreferences"%string, Json.Num 5);
                        ("favoriteArtists"%string, Json.Arr [Json.Str "Artist Z"]);
                        ("discoveryOpenness"%string, Json.Num (1 # 5))])]) /\
  import_into JsonText.parse half_good_text after_one_like =
    (Json.Normal tt, mkWorld (InModel half_imported) [Json.TypeError]) /\
  half_imported <> after_one_like /\
  half_imported <>
    imported (mkProfile [("Artist Z"%string, 9)] [] [] [] []
                ["Artist Z"%string] (1 # 5) 0) after_one_like.
Proof.
  split; [intros; apply importProfile_normal|].
  split.
  { intros JSON_parse data this H.
    unfold import_into, importProfile, try_catch, importProfile_body, bind,
      eval, parse.
    now rewrite H. }
  split.
  { intros JSON_parse data fields this H Hnone.
    unfold import_into, importProfile, try_catch, importProfile_body, bind,
      eval, parse.
    rewrite H. cbn [Json.get]. now rewrite Hnone. }
  split; [vm_compute; reflexivity|].
  split; [vm_compute; reflexivity|].
  split; intros H; apply (f_equal userProfile) in H.
  - apply (f_equal artistPreferences) in H. vm_compute in H. discriminate.
  - apply (f_equal favoriteArtists) in H. vm_compute in H. discriminate.
Qed.

(** C10: a text that parses to an object whose [profile] is the export of
    some profile [p] is imported without an error, and the engine's
    [discoveryOpenness] afterwards is that of [p], unclamped: outside
    [0.1, 0.5] when that of [p] is. *)
Theorem importProfile_copies_openness
    (JSON_parse : string -> option Json.value) (data : string)
    (fields : list (string * Json.value)) (p : UserTasteProfile)
    (this : Engine) :
  JSON_parse data = Some (Json.Obj fields) ->
  Json.lookup fields "profile" = Some (profile_json p) ->
  exists after,
    import_into JSON_parse data this =
      (Json.Normal tt, mkWorld (InModel after) []) /\
    discoveryOpenness (userProfile after) = discoveryOpenness p /\
    (~ (0.1 <= discoveryOpenness p <= 0.5) ->
     ~ (0.1 <= discoveryOpenness (userProfile after) <= 0.5)).
Proof.
  intros Hparse Hprofile. exists (imported p this).
  split; [now apply import_of_profile_json with (fields := fields)|].
  split; [reflexivity | auto].
Qed.

Lemma importProfile_copies_openness_witness :
  exists after,
    import_into JsonText.parse
      (JsonText.stringify (Json.Obj eager_fields)) after_one_like =
      (Json.Normal tt, mkWorld (InModel after) []) /\
    discoveryOpenness (userProfile after) = 0.9 /\
    (~ (0.1 <= 0.9 <= 0.5) ->
     ~ (0.1 <= discoveryOpenness (userProfile after) <= 0.5)).
Proof.
  apply (importProfile_copies_openness JsonText.parse
           (JsonText.stringify (Json.Obj eager_fields)) eager_fields
           eager_profile after_one_like).
  - vm_compute. reflexivity.
  - reflexivity.
Defined.

(* ====================================================================== *)
(** * Further properties of the engine *)

(** ** The bounded history *)

Lemma slice_last_all {A} n (xs : list A) :
  (length xs <= n)%nat -> Js.slice_last n xs = xs.
Proof.
  intros H. unfold Js.slice_last.
  replace (length xs - n)%nat with 0%nat by lia. reflexivity.
Qed.

Lemma slice_last_app {A} n (xs ys : list A) :
  Js.slice_last n (Js.slice_last n xs ++ ys) = Js.slice_last n (xs ++ ys).
Proof.
  destruct (Nat.le_gt_cases (length xs) n) as [H | H].
  - now rewrite (slice_last_all n xs) by exact H.
  - unfold Js.slice_last. rewrite !length_app, length_skipn.
    set (k := (length xs - n)%nat).
    replace (length xs - k + length ys - n)%nat with (length ys) by lia.
    replace (length xs + length ys - n)%nat with (length ys + k)%nat by lia.
    rewrite <- skipn_skipn, (skipn_app k xs ys).
    replace (k - length xs)%nat with 0%nat by lia. reflexivity.
Qed.

(** The history after one more event: the last fifty of the old history
    followed by the event. *)
Lemma record_history_window now event this :
  (length (listeningHistory this) <= HISTORY_WINDOW)%nat ->
  listeningHistory (recordListeningEvent now event this) =
  Js.slice_last HISTORY_WINDOW (listeningHistory this ++ [event]).
Proof.
  intros H. rewrite record_history. cbv zeta.
  destruct (Nat.ltb HISTORY_WINDOW (length (listeningHistory this ++ [event]))) eqn:E.
  - apply Nat.ltb_lt in E. rewrite length_app in E. simpl in E.
    unfold Js.slice_last. rewrite length_app. simpl.
    replace (length (listeningHistory this) + 1 - HISTORY_WINDOW)%nat
      with 1%nat by lia.
    reflexivity.
  - apply Nat.ltb_ge in E. now rewrite slice_last_all.
Qed.

Lemma record_all_history events this :
  (length (listeningHistory this) <= HISTORY_WINDOW)%nat ->
  listeningHistory (record_all events this) =
  Js.slice_last HISTORY_WINDOW (listeningHistory this ++ List.map snd events).
Proof.
  revert this. induction events as [|[now event] events IH]; intros this H.
  - simpl. rewrite app_nil_r. now rewrite slice_last_all.
  - simpl. rewrite IH.
    + rewrite record_history_window by exact H.
      rewrite slice_last_app, <- app_assoc. reflexivity.
    + rewrite record_history_window by exact H.
      rewrite slice_last_length. apply Nat.le_min_l.
Qed.

(** X1: the history of an engine is the last fifty of the events recorded
    into it since it was created, in the order of their recording. *)
Theorem history_is_last_fifty (now : Z) (events : list (Z * ListeningEvent.t)) :
  listeningHistory (record_all events (new_engine now)) =
  Js.slice_last 50 (List.map snd events) /\
  (length (listeningHistory (record_all events (new_engine now))) <= 50)%nat.
Proof.
  assert (E : listeningHistory (record_all events (new_engine now)) =
              Js.slice_last 50 (List.map snd events)).
  { rewrite record_all_history; [reflexivity | simpl; unfold HISTORY_WINDOW; lia]. }
  split; [exact E|]. rewrite E, slice_last_length. apply Nat.le_min_l.
Qed.

(** ** The recency sets *)

Lemma update_recentlyPlayed now event this :
  recentlyPlayed (userProfile (updateTasteProfile now event this)) =
  let added :=
    Js.Set_add (recentlyPlayed (userProfile this)) (ListeningEvent.songId event) in
  if Nat.ltb RECENT_PLAYED_WINDOW (Js.Set_size added) then
    match added with
    | oldest :: _ => Js.Set_delete added oldest
    | [] => added
    end
  else added.
Proof.
  unfold updateTasteProfile; cbv zeta.
  destruct (ListeningEvent.action event);
    destruct (Js.truthy_str (ListeningEvent.genre event));
    cbn [recentlyPlayed with_recentlyPlayed with_artistPreferences
         with_genrePreferences with_recentlySkipped];
    destruct (Nat.ltb RECENT_PLAYED_WINDOW _);
    try destruct (Js.Set_add _ _);
    repeat match goal with
    | |- context [if Nat.ltb ?a ?b then _ else _] => destruct (Nat.ltb a b)
    end;
    reflexivity.
Qed.

Lemma update_recentlySkipped now event this :
  recentlySkipped (userProfile (updateTasteProfile now event this)) =
  if Action_eqb (ListeningEvent.action event) skip
  then Js.Set_add (recentlySkipped (userProfile this)) (ListeningEvent.songId event)
  else recentlySkipped (userProfile this).
Proof. update_cases. Qed.

Lemma Set_add_In (s : Js.StrSet) x y :
  In y (Js.Set_add s x) <-> In y s \/ y = x.
Proof.
  unfold Js.Set_add. destruct (Js.Set_has s x) eqn:E.
  - apply Set_has_In in E. split; [tauto | intros [H | ->]; assumption].
  - rewrite in_app_iff. simpl. intuition congruence.
Qed.

Lemma Set_add_NoDup (s : Js.StrSet) x : NoDup s -> NoDup (Js.Set_add s x).
Proof.
  intros H. unfold Js.Set_add. destruct (Js.Set_has s x) eqn:E; [exact H|].
  apply NoDup_app; repeat split; [exact H | repeat constructor; intros [] |].
  intros y Hy [<- | []]. apply Set_has_In in Hy. congruence.
Qed.

Lemma Set_add_length (s : Js.StrSet) x :
  (length (Js.Set_add s x) <= S (length s))%nat /\
  (In x s -> Js.Set_add s x = s) /\
  (~ In x s -> Js.Set_add s x = s ++ [x])%list.
Proof.
  unfold Js.Set_add. destruct (Js.Set_has s x) eqn:E.
  - apply Set_has_In in E. split; [lia|]. split; [reflexivity | tauto].
  - split; [rewrite length_app; simpl; lia|]. split; [|reflexivity].
    intros H. apply Set_has_In in H. congruence.
Qed.

Lemma record_recentlyPlayed now event this :
  played_window this ->
  played_window (recordListeningEvent now event this) /\
  In (ListeningEvent.songId event)
     (recentlyPlayed (userProfile (recordListeningEvent now event this))).
Proof.
  intros [Hlen Hnd]. unfold played_window, recordListeningEvent.
  rewrite update_recentlyPlayed. simpl userProfile. cbv zeta.
  set (s := recentlyPlayed (userProfile this)) in *.
  set (x := ListeningEvent.songId event).
  pose proof (Set_add_NoDup s x Hnd) as Hnd'.
  destruct (Set_add_length s x) as (Hle & Hold & Hnew).
  assert (Hin : In x (Js.Set_add s x)) by (apply Set_add_In; now right).
  unfold Js.Set_size, RECENT_PLAYED_WINDOW in *.
  destruct (Nat.ltb 20 (length (Js.Set_add s x))) eqn:E;
    [apply Nat.ltb_lt in E | apply Nat.ltb_ge in E; tauto].
  destruct (in_dec string_dec x s) as [Hx | Hx].
  { rewrite (Hold Hx) in E. lia. }
  rewrite (Hnew Hx) in *. clear Hold Hnew.
  destruct s as [|oldest s']; simpl in *; [lia|].
  rewrite String.eqb_refl. simpl. unfold Js.Set_delete.
  repeat split.
  - pose proof (filter_length_le (fun y => negb (String.eqb oldest y)) (s' ++ [x])) as F.
    rewrite length_app in *. simpl in *. lia.
  - apply NoDup_filter. now apply NoDup_cons_iff in Hnd'.
  - apply filter_In. split; [apply in_or_app; right; now left|].
    apply negb_true_iff, String.eqb_neq. intros ->. tauto.
Qed.

Lemma reachable_played_window P this :
  reachable_with P this -> played_window this.
Proof.
  induction 1 as [now | now event this _ IH _].
  - split; [simpl; unfold RECENT_PLAYED_WINDOW; lia | constructor].
  - now apply record_recentlyPlayed.
Qed.

(** X2: on an engine reached by recording events, [recentlyPlayed] holds at
    most twenty song ids, none twice, and right after an event it holds the
    id of that event's song. *)
Theorem recentlyPlayed_window (this : Engine) :
  reachable this ->
  (length (recentlyPlayed (userProfile this)) <= 20)%nat /\
  NoDup (recentlyPlayed (userProfile this)) /\
  forall now event,
    In (ListeningEvent.songId event)
       (recentlyPlayed (userProfile (recordListeningEvent now event this))).
Proof.
  intros H. pose proof (reachable_played_window _ _ H) as Hw.
  destruct Hw as [Hlen Hnd]. repeat split; try assumption.
  intros now event. now apply record_recentlyPlayed.
Qed.

Lemma recentlyPlayed_window_witness :
  (length (recentlyPlayed (userProfile after_one_like)) <= 20)%nat /\
  NoDup (recentlyPlayed (userProfile after_one_like)) /\
  forall now event,
    In (ListeningEvent.songId event)
       (recentlyPlayed
          (userProfile (recordListeningEvent now event after_one_like))).
Proof.
  apply recentlyPlayed_window.
  apply reach_record; [apply reach_new | exact I].
Defined.

Lemma record_recentlySkipped now event this :
  recentlySkipped (userProfile (recordListeningEvent now event this)) =
  if Action_eqb (ListeningEvent.action event) skip
  then Js.Set_add (recentlySkipped (userProfile this)) (ListeningEvent.songId event)
  else recentlySkipped (userProfile this).
Proof.
  unfold recordListeningEvent. now rewrite update_recentlySkipped.
Qed.

(** X3: [recentlySkipped] never loses a member: an event keeps every id
    that is in it, a [skip] adds the id of its song, and any other event
    leaves the set as it is. *)
Theorem recentlySkipped_only_grows (now : Z) (event : ListeningEvent.t)
    (this : Engine) :
  let before_ := recentlySkipped (userProfile this) in
  let after := recentlySkipped (userProfile (recordListeningEvent now event this)) in
  (forall id, In id before_ -> In id after) /\
  (ListeningEvent.action event = skip ->
     In (ListeningEvent.songId event) after) /\
  (ListeningEvent.action event <> skip -> after = before_).
Proof.
  cbv zeta. rewrite record_recentlySkipped.
  destruct (ListeningEvent.action event); simpl;
    repeat split; intros; try congruence; try assumption;
    apply Set_add_In; auto.
Qed.

(** X23: after any run of events, the ids in [recentlySkipped] are those
    that were in it before the run and the ids of the songs of the run's
    skips: an id that was skipped once stays, whatever follows. *)
Theorem recentlySkipped_is_every_skip (events : list (Z * ListeningEvent.t))
    (this : Engine) (id : string) :
  In id (recentlySkipped (userProfile (record_all events this))) <->
  In id (recentlySkipped (userProfile this)) \/
  exists ev, In ev events /\
             ListeningEvent.action (snd ev) = skip /\
             ListeningEvent.songId (snd ev) = id.
Proof.
  revert this. induction events as [|ev events IH]; intros this.
  - simpl. split; [tauto | intros [H | [ev [[] _]]]; exact H].
  - change (record_all (ev :: events) this)
      with (record_all events (recordListeningEvent (fst ev) (snd ev) this)).
    rewrite IH, record_recentlySkipped.
    destruct (ListeningEvent.action (snd ev)) eqn:Ea; simpl Action_eqb; cbv iota;
      try rewrite Set_add_In;
      (split;
       [ intros [H | [ev' [Hin Hev']]];
         [ try (destruct H as [H | H]);
           first [ now left
                 | right; exists ev; simpl; repeat split; auto; congruence ]
         | right; exists ev'; simpl; tauto ]
       | intros [H | [ev' [[<- | Hin] [Hact Hid]]]];
         [ auto
         | first [ congruence | left; right; congruence ]
         | right; exists ev'; tauto ] ]).
Qed.

(** X4: right after an event of any kind (a skip included) the song of the
    event has the repetition penalty -80, since the song is then in
    [recentlyPlayed], which is looked at before [recentlySkipped]. *)
Theorem penalty_right_after_event (this : Engine) :
  reachable this ->
  forall now event candidate context,
    Song.id candidate = ListeningEvent.songId event ->
    calculateRepetitionPenalty (recordListeningEvent now event this)
      candidate context = -80.
Proof.
  intros H now event candidate context E.
  destruct (record_recentlyPlayed now event this
              (reachable_played_window _ _ H)) as [_ Hin].
  rewrite <- E in Hin. unfold calculateRepetitionPenalty.
  apply Set_has_In in Hin. now rewrite Hin.
Qed.

Lemma penalty_right_after_event_witness :
  calculateRepetitionPenalty (recordListeningEvent 2 early_skip after_one_like)
    (track "t1" "First" "Artist X") idle_context = -80.
Proof.
  apply (penalty_right_after_event after_one_like).
  - apply reach_record; [apply reach_new | exact I].
  - reflexivity.
Defined.

(** ** Runs of events and the strategy *)

Lemma record_all_app events1 events2 this :
  record_all (events1 ++ events2) this =
  record_all events2 (record_all events1 this).
Proof. unfold record_all. apply fold_left_app. Qed.

Lemma record_all_last events now event this :
  record_all (events ++ [(now, event)]) this =
  recordListeningEvent now event (record_all events this).
Proof. now rewrite record_all_app. Qed.

(** The history ends with the events just recorded, when they are at most
    fifty. *)
Lemma record_all_suffix events this :
  (length events <= HISTORY_WINDOW)%nat ->
  exists older,
    listeningHistory (record_all events this) = (older ++ List.map snd events)%list.
Proof.
  induction events as [|[now event] events IH] using rev_ind; intros Hlen.
  - exists (listeningHistory this). simpl. now rewrite app_nil_r.
  - rewrite length_app in Hlen. simpl in Hlen.
    destruct IH as [older IH]; [lia|].
    rewrite record_all_last, record_history. cbv zeta.
    rewrite IH, map_app. simpl.
    destruct (Nat.ltb _ _) eqn:E.
    + apply Nat.ltb_lt in E. rewrite !length_app, length_map in E. simpl in E.
      unfold HISTORY_WINDOW in *.
      destruct older as [|o older]; simpl in *; [lia|].
      exists older. now rewrite <- app_assoc.
    + exists older. now rewrite <- app_assoc.
Qed.

Lemma filter_all {A} (P : A -> bool) (xs : list A) :
  Forall (fun x => P x = true) xs -> filter P xs = xs.
Proof.
  induction 1 as [|x xs Hx _ IH]; simpl; [reflexivity|].
  now rewrite Hx, IH.
Qed.


(** The skips among the last ten entries of a history that ends with [n]
    skips, [n <= 10], are at least [n]. *)
Lemma recentSkips_suffix older recent :
  Forall (fun e => is_skip e = true) recent -> (length recent <= 10)%nat ->
  (length recent <= recentSkips (older ++ recent))%nat.
Proof.
  intros Hall Hlen. unfold recentSkips, Js.slice_last.
  rewrite length_app, skipn_app.
  replace (length older + length recent - 10 - length older)%nat with 0%nat by lia.
  simpl. rewrite filter_app, length_app, (filter_all _ _ Hall). lia.
Qed.

(** X5: whatever the engine's state, once six or more skips have been
    recorded in a row the strategy is [focus_mode]. *)
Theorem skips_in_a_row_focus (this : Engine)
    (skips : list (Z * ListeningEvent.t)) :
  Forall (fun ev => ListeningEvent.action (snd ev) = skip) skips ->
  (6 <= length skips)%nat ->
  getRecommendationStrategy (record_all skips this) = focus_mode.
Proof.
  intros Hall Hlen.
  rewrite <- (firstn_skipn (length skips - 6) skips), record_all_app.
  set (front := firstn (length skips - 6) skips).
  set (last6 := skipn (length skips - 6) skips).
  assert (H6 : length last6 = 6%nat) by (unfold last6; rewrite length_skipn; lia).
  assert (Hs : Forall (fun e => is_skip e = true) (List.map snd last6)).
  { apply Forall_map. rewrite Forall_forall in *. intros ev Hev.
    unfold is_skip. rewrite (Hall ev); [reflexivity|].
    unfold last6 in Hev. eapply skipn_In; eauto. }
  destruct (record_all_suffix last6 (record_all front this)) as [older E];
    [unfold HISTORY_WINDOW; lia|].
  pose proof (recentSkips_suffix older (List.map snd last6) Hs) as Hk.
  rewrite length_map, H6 in Hk. rewrite <- E in Hk.
  unfold getRecommendationStrategy.
  assert (Hf : 0.5 < skipRate (record_all last6 (record_all front this)))
    by (apply skipRate_above_half; lia).
  apply gtb_true in Hf. now rewrite Hf.
Qed.

Lemma skips_in_a_row_focus_witness :
  getRecommendationStrategy (record_all six_skips (new_engine 0)) = focus_mode.
Proof.
  apply skips_in_a_row_focus.
  - repeat constructor.
  - simpl. lia.
Defined.







(** ** What an event changes *)

Lemma Map_get_set_same {V} (m : Js.Map V) k v :
  Js.Map_get (Js.Map_set m k v) k = Some v.
Proof.
  induction m as [|[k' v'] m IH]; simpl.
  - now rewrite String.eqb_refl.
  - destruct (String.eqb k k') eqn:E; simpl; rewrite E; [reflexivity | exact IH].
Qed.

Lemma Map_get_set_other {V} (m : Js.Map V) k v k0 :
  k0 <> k -> Js.Map_get (Js.Map_set m k v) k0 = Js.Map_get m k0.
Proof.
  intros Hne. induction m as [|[k' v'] m IH]; simpl.
  - apply String.eqb_neq in Hne. now rewrite Hne.
  - destruct (String.eqb k k') eqn:E; simpl.
    + apply String.eqb_eq in E. subst k'.
      apply String.eqb_neq in Hne. now rewrite Hne.
    + now rewrite IH.
Qed.

Lemma record_artistPreferences now event this :
  artistPreferences (userProfile (recordListeningEvent now event this)) =
  Js.Map_set (artistPreferences (userProfile this)) (ListeningEvent.artist event)
    (artist_score_after event
       (Js.or_zero (Js.Map_get (artistPreferences (userProfile this))
                      (ListeningEvent.artist event)))).
Proof. unfold recordListeningEvent. now rewrite update_artistPreferences. Qed.

Lemma record_genrePreferences now event this :
  genrePreferences (userProfile (recordListeningEvent now event this)) =
  match Js.truthy_str (ListeningEvent.genre event) with
  | Some genre =>
      Js.Map_set (genrePreferences (userProfile this)) genre
        (genre_score_after event
           (Js.or_zero (Js.Map_get (genrePreferences (userProfile this)) genre)))
  | None => genrePreferences (userProfile this)
  end.
Proof. unfold recordListeningEvent. now rewrite update_genrePreferences. Qed.

(** X7: an event changes the score of no artist but its own and of no genre
    but its own; an event without a genre, or with the empty string for
    one, changes no genre score at all; and the artist of the event has a
    score afterwards, which for a like, a full listen and a replay is the
    score before ([0] when there was none) plus 5, 3 and 4. *)
Theorem event_touches_its_own_scores (now : Z) (event : ListeningEvent.t)
    (this : Engine) :
  let next := recordListeningEvent now event this in
  let artists := artistPreferences (userProfile this) in
  let genres := genrePreferences (userProfile this) in
  let current := Js.or_zero (Js.Map_get artists (ListeningEvent.artist event)) in
  (forall a, a <> ListeningEvent.artist event ->
     Js.Map_get (artistPreferences (userProfile next)) a = Js.Map_get artists a) /\
  (forall g, ListeningEvent.genre event <> Some g ->
     Js.Map_get (genrePreferences (userProfile next)) g = Js.Map_get genres g) /\
  (ListeningEvent.genre event = None \/
   ListeningEvent.genre event = Some EmptyString ->
     genrePreferences (userProfile next) = genres) /\
  exists v,
    Js.Map_get (artistPreferences (userProfile next))
      (ListeningEvent.artist event) = Some v /\
    (ListeningEvent.action event = like -> v == current + 5) /\
    (ListeningEvent.action event = full_listen -> v == current + 3) /\
    (ListeningEvent.action event = replay -> v == current + 4).
Proof.
  cbv zeta. rewrite record_artistPreferences, record_genrePreferences.
  split; [intros a Ha; now apply Map_get_set_other|].
  split.
  { intros g Hg. destruct (ListeningEvent.genre event) as [[|c s]|]; simpl;
      try reflexivity.
    apply Map_get_set_other. congruence. }
  split.
  { intros [-> | ->]; reflexivity. }
  eexists. split; [apply Map_get_set_same|].
  unfold artist_score_after.
  repeat split; intros ->; apply add_spec.
Qed.

(** ** The first ten artists *)

Lemma Map_set_key_In {V} (m : Js.Map V) k v : In k (Js.Map_keys (Js.Map_set m k v)).
Proof.
  rewrite Map_set_keys. destruct (Js.includes (Js.Map_keys m) k) eqn:E.
  - now apply includes_In.
  - apply in_or_app. right. now left.
Qed.

Lemma record_favoriteArtists now event this :
  favoriteArtists (userProfile (recordListeningEvent now event this)) =
  List.map fst
    (Js.slice_first 10
       (Js.sort by_score_desc
          (Js.Map_entries
             (artistPreferences
                (userProfile (recordListeningEvent now event this)))))).
Proof. unfold recordListeningEvent. now rewrite update_favoriteArtists. Qed.

(** X8: while the engine knows at most ten artists every one of them is a
    favourite, whatever its score: in particular the artist of the event
    just recorded, also when the event was a skip. *)
Theorem few_artists_all_favourites (now : Z) (event : ListeningEvent.t)
    (this : Engine) :
  let next := recordListeningEvent now event this in
  (length (artistPreferences (userProfile next)) <= 10)%nat ->
  Permutation (favoriteArtists (userProfile next))
              (Js.Map_keys (artistPreferences (userProfile next))) /\
  In (ListeningEvent.artist event) (favoriteArtists (userProfile next)).
Proof.
  cbv zeta. intros Hlen.
  assert (Hp : Permutation
                 (favoriteArtists (userProfile (recordListeningEvent now event this)))
                 (Js.Map_keys (artistPreferences
                                 (userProfile (recordListeningEvent now event this))))).
  { rewrite record_favoriteArtists. unfold Js.slice_first, Js.Map_keys.
    apply Permutation_map. simpl Z.to_nat.
    rewrite firstn_all2 by (rewrite sort_length; exact Hlen).
    apply sort_perm. }
  split; [exact Hp|].
  apply (Permutation_in _ (Permutation_sym Hp)).
  rewrite record_artistPreferences. apply Map_set_key_In.
Qed.

Lemma few_artists_all_favourites_witness :
  Permutation
    (favoriteArtists (userProfile (recordListeningEvent 2 early_skip (new_engine 0))))
    (Js.Map_keys
       (artistPreferences
          (userProfile (recordListeningEvent 2 early_skip (new_engine 0))))) /\
  In (ListeningEvent.artist early_skip)
     (favoriteArtists (userProfile (recordListeningEvent 2 early_skip (new_engine 0)))).
Proof.
  apply (few_artists_all_favourites 2 early_skip (new_engine 0)).
  vm_compute. lia.
Defined.

(** ** The ranges of the similarity scores *)

Lemma Math_max_with_1_ge_1 (xs : list Js.num) : 1 <= Js.Math_max_with_1 xs.
Proof.
  induction xs as [|x xs IH]; simpl; [lra|].
  destruct (Math_max_cases x (Js.Math_max_with_1 xs)) as [[H E] | [H E]];
    rewrite E; lra.
Qed.

Lemma Math_max_with_1_ge (xs : list Js.num) x :
  In x xs -> x <= Js.Math_max_with_1 xs.
Proof.
  induction xs as [|y xs IH]; simpl; [tauto|].
  intros Hin.
  destruct (Math_max_cases y (Js.Math_max_with_1 xs)) as [[H E] | [H E]];
    rewrite E; destruct Hin as [<- | Hx]; try lra;
    specialize (IH Hx); lra.
Qed.

Lemma or_zero_get_le_max (m : Js.Map Js.num) k :
  Js.or_zero (Js.Map_get m k) <= Js.Math_max_with_1 (Js.Map_values m).
Proof.
  pose proof (Math_max_with_1_ge_1 (Js.Map_values m)) as H1.
  destruct (Js.Map_get m k) as [v|] eqn:E; simpl; [|lra].
  destruct (Js.truthy v); [|lra].
  apply Math_max_with_1_ge. apply Map_get_In in E.
  unfold Js.Map_values. change v with (snd (k, v)). now apply in_map.
Qed.

(** A score divided by the largest score (or by [1]) lies in [0, 1]. *)
Lemma normalised_range (m : Js.Map Js.num) k :
  nonneg_values m ->
  0 <= Js.or_zero (Js.Map_get m k) /! Js.Math_max_with_1 (Js.Map_values m) <= 1.
Proof.
  intros Hm. to_Q.
  pose proof (Math_max_with_1_ge_1 (Js.Map_values m)) as H1.
  pose proof (or_zero_get_le_max m k) as H2.
  pose proof (Map_get_nonneg m k Hm) as H3.
  split.
  - apply Qle_shift_div_l; lra.
  - apply Qle_shift_div_r; lra.
Qed.

(** X9: when no stored artist score is negative, [artistSimilarity] is 80
    for a candidate by the artist of the current song, at least 90 for a
    candidate by another artist who is a favourite, and between 0 and 70 for
    any other candidate. *)
Theorem artistSimilarity_tiers (this : Engine) (candidate : Song.t)
    (context : SessionContext) :
  nonneg_values (artistPreferences (userProfile this)) ->
  let similarity := calculateArtistSimilarity this candidate context in
  let same := Song.artist candidate = Song.artist (currentSong context) in
  let favourite :=
    In (Song.artist candidate) (favoriteArtists (userProfile this)) in
  (same -> similarity = 80) /\
  (~ same -> favourite -> 90 <= similarity) /\
  (~ same -> ~ favourite -> 0 <= similarity <= 70).
Proof.
  intros Hm. cbv zeta. unfold calculateArtistSimilarity.
  destruct (String.eqb _ _) eqn:E;
    [apply String.eqb_eq in E | apply String.eqb_neq in E].
  { repeat split; intros; try reflexivity; contradiction. }
  destruct (Js.includes _ _) eqn:F.
  - apply includes_In in F. split; [contradiction|]. split; [|tauto].
    intros _ _. to_Q.
    pose proof (Map_get_nonneg _ (Song.artist candidate) Hm). lra.
  - assert (~ In (Song.artist candidate) (favoriteArtists (userProfile this))).
    { intros H. apply includes_In in H. congruence. }
    split; [contradiction|]. split; [tauto|]. intros _ _.
    pose proof (normalised_range _ (Song.artist candidate) Hm) as [H0 H1].
    rewrite mul_spec. lra.
Qed.

Lemma after_one_like_nonneg :
  nonneg_values (artistPreferences (userProfile after_one_like)) /\
  nonneg_values (genrePreferences (userProfile after_one_like)).
Proof.
  split; intros k v [[= <- <-] | []]; unfold Qle; simpl; lia.
Qed.

Lemma artistSimilarity_tiers_witness :
  let similarity :=
    calculateArtistSimilarity after_one_like (library 1%nat) idle_context in
  let same := Song.artist (library 1%nat) = Song.artist (currentSong idle_context) in
  let favourite :=
    In (Song.artist (library 1%nat)) (favoriteArtists (userProfile after_one_like)) in
  (same -> similarity = 80) /\
  (~ same -> favourite -> 90 <= similarity) /\
  (~ same -> ~ favourite -> 0 <= similarity <= 70).
Proof.
  apply (artistSimilarity_tiers after_one_like (library 1%nat) idle_context).
  exact (proj1 after_one_like_nonneg).
Defined.

(** X10: when no stored genre score is negative, [genreSimilarity] is 50
    for a candidate without a genre (or with the empty string for one) and
    between 0 and 100 for any other candidate; it is 0 for a genre the
    engine has no score for. *)
Theorem genreSimilarity_range (this : Engine) (candidate : Song.t)
    (context : SessionContext) :
  nonneg_values (genrePreferences (userProfile this)) ->
  let similarity := calculateGenreSimilarity this candidate context in
  (Song.genre candidate = None \/ Song.genre candidate = Some EmptyString ->
     similarity = 50) /\
  0 <= similarity <= 100 /\
  (forall g, Song.genre candidate = Some g -> g <> EmptyString ->
     Js.Map_get (genrePreferences (userProfile this)) g = None ->
     similarity == 0).
Proof.
  intros Hm. cbv zeta. unfold calculateGenreSimilarity.
  split; [intros [-> | ->]; reflexivity|].
  split.
  - destruct (Js.truthy_str (Song.genre candidate)) as [g|]; [|lra].
    pose proof (normalised_range _ g Hm) as [H0 H1].
    rewrite mul_spec. lra.
  - intros g -> Hg Hnone.
    destruct g as [|c g]; [congruence|]. simpl. rewrite Hnone. simpl.
    to_Q. unfold Qdiv. lra.
Qed.

Lemma genreSimilarity_range_witness :
  let similarity :=
    calculateGenreSimilarity after_one_like (library 1%nat) idle_context in
  (Song.genre (library 1%nat) = None \/
   Song.genre (library 1%nat) = Some EmptyString -> similarity = 50) /\
  0 <= similarity <= 100 /\
  (forall g, Song.genre (library 1%nat) = Some g -> g <> EmptyString ->
     Js.Map_get (genrePreferences (userProfile after_one_like)) g = None ->
     similarity == 0).
Proof.
  apply (genreSimilarity_range after_one_like (library 1%nat) idle_context).
  exact (proj2 after_one_like_nonneg).
Defined.

(** ** What the recommender returns *)

Lemma recommended_are_candidates heap this candidates context count :
  incl (recommendNextSongs heap this candidates context count) candidates.
Proof.
  rewrite recommendNextSongs_picked.
  intros r Hr. apply in_map_iff in Hr. destruct Hr as (s & <- & Hs).
  apply (Permutation_in _ (scored_songs heap this context candidates)).
  apply in_map. apply in_app_or in Hs.
  destruct Hs as [Hs | Hs]; [eapply picked_incl | eapply backfill_incl]; eauto.
Qed.

Lemma recommended_none heap this candidates context count :
  (0 < count)%Z ->
  (recommendNextSongs heap this candidates context count = [] <->
   candidates = []).
Proof.
  rewrite recommendNextSongs_picked. intros Hc. split.
  - intros E. apply map_eq_nil in E. apply app_eq_nil in E.
    destruct E as [Ep Eb]. unfold backfill in Eb. rewrite Ep in Eb.
    simpl in Eb. destruct (0 <? count)%Z eqn:F; [|apply Z.ltb_ge in F; lia].
    unfold Js.slice_first in Eb. rewrite Z.sub_0_r in Eb.
    pose proof (scored_length heap this context candidates) as Hl.
    destruct (scored_candidates heap this context candidates) as [|s l];
      [destruct candidates; [reflexivity | discriminate]|].
    destruct (Z.to_nat count) eqn:G; [lia | discriminate].
  - intros ->. unfold backfill, picked, scored_candidates. simpl.
    rewrite !firstn_nil. simpl.
    destruct (0 <? count)%Z; unfold Js.slice_first; now rewrite ?firstn_nil.
Qed.

(** X11: every song that [recommendNextSongs] returns is one of the
    candidates, and for a positive [count] it returns no song only when
    there is no candidate. *)
Theorem recommendNextSongs_from_candidates (heap : Heap) (this : Engine)
    (candidates : list objref) (context : SessionContext) (count : Z) :
  let results := recommendNextSongs heap this candidates context count in
  incl results candidates /\
  ((0 < count)%Z -> (results = [] <-> candidates = [])).
Proof.
  cbv zeta. split.
  - apply recommended_are_candidates.
  - apply recommended_none.
Qed.

(** ** What the import leaves alone *)






(** X13: a profile exported from an engine reached by recording events and
    imported into any engine (a new session, say) gives that engine the
    four exported fields of the first and leaves its own history, recency
    sets, mood scores and time stamp as they were; [JSON.parse] is assumed
    to read the exported text back as the exported object. *)
Theorem profile_transfers
    (JSON_parse : string -> option Json.value)
    (JSON_stringify : Json.value -> string) (this that : Engine) :
  reachable this ->
  JSON_parse (exportProfile JSON_stringify this) = Some (export_value this) ->
  exists after,
    import_into JSON_parse (exportProfile JSON_stringify this) that =
      (Json.Normal tt, mkWorld (InModel after) []) /\
    artistPreferences (userProfile after) = artistPreferences (userProfile this) /\
    genrePreferences (userProfile after) = genrePreferences (userProfile this) /\
    favoriteArtists (userProfile after) = favoriteArtists (userProfile this) /\
    discoveryOpenness (userProfile after) = discoveryOpenness (userProfile this) /\
    same_session that after.
Proof.
  intros Hreach Hparse.
  destruct (reachable_distinct_keys _ _ Hreach) as [Ha Hg].
  exists (imported (userProfile this) that). split.
  - eapply import_of_profile_json; [exact Hparse | reflexivity].
  - simpl. rewrite !Map_of_entries_id by assumption.
    repeat split.
Qed.

Lemma profile_transfers_witness :
  exists after,
    import_into JsonText.parse
      (exportProfile JsonText.stringify after_one_like) (new_engine 5) =
      (Json.Normal tt, mkWorld (InModel after) []) /\
    artistPreferences (userProfile after) =
      artistPreferences (userProfile after_one_like) /\
    genrePreferences (userProfile after) =
      genrePreferences (userProfile after_one_like) /\
    favoriteArtists (userProfile after) =
      favoriteArtists (userProfile after_one_like) /\
    discoveryOpenness (userProfile after) =
      discoveryOpenness (userProfile after_one_like) /\
    same_session (new_engine 5) after.
Proof.
  apply (profile_transfers JsonText.parse JsonText.stringify after_one_like
           (new_engine 5)).
  - apply reach_record; [apply reach_new | exact I].
  - vm_compute. reflexivity.
Defined.

(** ** The blend when both buckets are large enough *)

Lemma StronglySorted_filter {A} (R : A -> A -> Prop) (P : A -> bool) xs :
  StronglySorted R xs -> StronglySorted R (filter P xs).
Proof.
  induction 1 as [|x xs Hs IH Hall]; simpl; [constructor|].
  destruct (P x); [|exact IH].
  constructor; [exact IH|].
  rewrite Forall_forall in *. intros y Hy. apply Hall.
  apply filter_In in Hy. tauto.
Qed.

Lemma by_total_desc_before a b : before by_total_desc a b <-> score b <= score a.
Proof.
  unfold before, by_total_desc. to_Q. split; intros; lra.
Qed.

Lemma scored_sorted heap this context candidates :
  StronglySorted (before by_total_desc)
    (scored_candidates heap this context candidates).
Proof.
  apply sort_sorted.
  - intros a b. rewrite !by_total_desc_before.
    destruct (Qlt_le_dec (score a) (score b)); [right; lra | left; lra].
  - intros a b c. rewrite !by_total_desc_before. intros; lra.
Qed.

(** X14: when the familiar bucket holds at least [targetFamiliar] candidates
    and the discovery bucket at least [targetDiscovery], the result is the
    [targetFamiliar] best-scored familiar candidates followed by the
    [targetDiscovery] best-scored discovery candidates, [count] songs in
    all and none from the backfill: a candidate left out of a bucket's
    share has no higher score than one taken from that bucket. *)
Theorem blend_takes_the_best (heap : Heap) (this : Engine)
    (candidates : list objref) (context : SessionContext) (count : Z) :
  (0 <= count)%Z ->
  0 <= discoveryOpenness (userProfile this) <= 1 ->
  let scored := scored_candidates heap this context candidates in
  let familiar := filter (is_familiar heap this) scored in
  let discovery := filter (is_discovery heap this) scored in
  let nf := Z.to_nat (targetFamiliar this count) in
  let nd := Z.to_nat (targetDiscovery this count) in
  (nf <= length familiar)%nat -> (nd <= length discovery)%nat ->
  recommendNextSongs heap this candidates context count =
    (List.map song (firstn nf familiar) ++ List.map song (firstn nd discovery))%list /\
  length (firstn nf familiar) = nf /\
  length (firstn nd discovery) = nd /\
  Z.of_nat (nf + nd) = count /\
  (forall a b, In a (firstn nf familiar) -> In b (skipn nf familiar) ->
     score b <= score a) /\
  (forall a b, In a (firstn nd discovery) -> In b (skipn nd discovery) ->
     score b <= score a).
Proof.
  intros Hc Hd. cbv zeta. intros Hf Hdisc.
  pose proof (targetFamiliar_range this count Hc Hd) as Ht.
  pose proof (scored_sorted heap this context candidates) as Hs.
  unfold targetDiscovery in *.
  split.
  { unfold recommendNextSongs. cbv zeta. fold (scored_candidates heap this context candidates).
    unfold targetDiscovery.
    rewrite length_app, !length_map, !length_firstn.
    destruct (Z.ltb _ count) eqn:E; [apply Z.ltb_lt in E; lia | reflexivity]. }
  split; [rewrite length_firstn; lia|].
  split; [rewrite length_firstn; lia|].
  split; [lia|].
  split; intros a b Ha Hb; apply by_total_desc_before.
  - exact (StronglySorted_split _ _ _
             (StronglySorted_filter _ (is_familiar heap this) _ Hs) a b Ha Hb).
  - exact (StronglySorted_split _ _ _
             (StronglySorted_filter _ (is_discovery heap this) _ Hs) a b Ha Hb).
Qed.

Lemma blend_takes_the_best_witness :
  let scored :=
    scored_candidates fan_library after_one_like other_context [0; 1; 2; 3]%nat in
  let familiar := filter (is_familiar fan_library after_one_like) scored in
  let discovery := filter (is_discovery fan_library after_one_like) scored in
  let nf := Z.to_nat (targetFamiliar after_one_like 3) in
  let nd := Z.to_nat (targetDiscovery after_one_like 3) in
  recommendNextSongs fan_library after_one_like [0; 1; 2; 3]%nat other_context 3 =
    (List.map song (firstn nf familiar) ++ List.map song (firstn nd discovery))%list /\
  length (firstn nf familiar) = nf /\
  length (firstn nd discovery) = nd /\
  Z.of_nat (nf + nd) = 3%Z /\
  (forall a b, In a (firstn nf familiar) -> In b (skipn nf familiar) ->
     score b <= score a) /\
  (forall a b, In a (firstn nd discovery) -> In b (skipn nd discovery) ->
     score b <= score a).
Proof.
  apply (blend_takes_the_best fan_library after_one_like [0; 1; 2; 3]%nat
           other_context 3).
  - lia.
  - split; apply Qle_bool_iff; vm_compute; reflexivity.
  - vm_compute. lia.
  - vm_compute. lia.
Defined.

(* ====================================================================== *)
(** * Properties of the player *)

(** ** Titles *)

Lemma startsWith_empty s : JsString.startsWith s EmptyString = true.
Proof. destruct s; reflexivity. Qed.

Lemma startsWith_refl s : JsString.startsWith s s = true.
Proof.
  induction s as [|c s IH]; simpl; [reflexivity|].
  now rewrite Ascii.eqb_refl, IH.
Qed.

Lemma includes_empty s : JsString.includes s EmptyString = true.
Proof. destruct s; reflexivity. Qed.

Lemma includes_refl s : JsString.includes s s = true.
Proof.
  destruct s as [|c s]; [reflexivity|].
  change (JsString.startsWith (String c s) (String c s)
          || JsString.includes s (String c s) = true).
  now rewrite startsWith_refl.
Qed.

Lemma lower_alnum_fixed c :
  JsString.is_lower_alnum c = true -> JsString.lower c = c.
Proof.
  unfold JsString.is_lower_alnum, JsString.lower.
  set (n := nat_of_ascii c). intros H.
  destruct ((Nat.leb 65 n && Nat.leb n 90)
            || (Nat.leb 192 n && Nat.leb n 222 && negb (Nat.eqb n 215))) eqn:E;
    [|reflexivity].
  exfalso.
  repeat match goal with
  | H : _ || _ = true |- _ => apply orb_true_iff in H; destruct H as [H | H]
  | H : _ && _ = true |- _ => apply andb_true_iff in H; destruct H
  | H : Nat.leb _ _ = true |- _ => apply Nat.leb_le in H
  end; lia.
Qed.

(** Cleaning a cleaned title changes nothing. *)
Lemma clean_title_idempotent title :
  clean_title (clean_title title) = clean_title title.
Proof.
  unfold clean_title.
  induction (JsString.toLowerCase title) as [|c s IH]; simpl; [reflexivity|].
  destruct (JsString.is_lower_alnum c) eqn:E; [|exact IH].
  simpl. rewrite (lower_alnum_fixed c E), E. now rewrite IH.
Qed.

(** X15: [isTitleTooSimilar] is symmetric, holds of every title with
    itself, looks at the cleaned titles only (lower case, letters [a-z] and
    digits), and holds of a title without any letter [a-z] or digit with
    every other title. *)
Theorem isTitleTooSimilar_facts (a b : string) :
  isTitleTooSimilar a b = isTitleTooSimilar b a /\
  isTitleTooSimilar a a = true /\
  isTitleTooSimilar (clean_title a) (clean_title b) = isTitleTooSimilar a b /\
  (clean_title a = EmptyString -> isTitleTooSimilar a b = true) /\
  (clean_title b = EmptyString -> isTitleTooSimilar a b = true).
Proof.
  unfold isTitleTooSimilar. cbv zeta. rewrite !clean_title_idempotent.
  split; [apply orb_comm|].
  split; [now rewrite includes_refl|].
  split; [reflexivity|].
  split; intros ->.
  - now rewrite includes_empty, orb_true_r.
  - now rewrite includes_empty.
Qed.

(** ** Video ids *)

Lemma getVideoId_transformed raw song :
  transformTrack (Some raw) = Value song ->
  getVideoId song = youtubeId_of raw.
Proof.
  intros [= <-]. unfold getVideoId. simpl.
  destruct (youtubeId_of raw) as [|c s] eqn:E; simpl; [|reflexivity].
  reflexivity.
Qed.

(** X16: [transformTrack] throws on a missing track only; for every track
    of the backend [getVideoId] gives back the video id that
    [transformTrack] settled on (the track's [youtube_id] when it has one
    that is not empty, else its [id] without the first [youtube_]); the id
    of the song is that video id after [yt_], so two tracks get the same
    song id only when they have the same video id. *)
Theorem getVideoId_of_transformTrack (raw : BackendTrack.t) :
  transformTrack None = Error "Track data is null" /\
  exists song,
    transformTrack (Some raw) = Value song /\
    getVideoId song = youtubeId_of raw /\
    PlayerSong.id song = ("yt_" ++ youtubeId_of raw)%string /\
    (forall y, BackendTrack.youtube_id raw = Some y -> y <> EmptyString ->
       getVideoId song = y) /\
    (BackendTrack.youtube_id raw = None \/
     BackendTrack.youtube_id raw = Some EmptyString ->
       getVideoId song =
       JsString.replace (BackendTrack.id raw) "youtube_" EmptyString) /\
    (forall raw' song',
       transformTrack (Some raw') = Value song' ->
       PlayerSong.id song' = PlayerSong.id song ->
       getVideoId song' = getVideoId song).
Proof.
  split; [reflexivity|].
  eexists. split; [reflexivity|].
  assert (E : getVideoId
                (PlayerSong.mk ("yt_" ++ youtubeId_of raw) (Some (youtubeId_of raw))
                   (JsString.or_else (BackendTrack.name raw) "Unknown Track")
                   (match BackendTrack.artists raw with
                    | Some (BackendTrack.Names names) => JsString.join ", " names
                    | Some (BackendTrack.Name name) =>
                        JsString.or_else (Some name) "Unknown Artist"
                    | None => "Unknown Artist"%string
                    end)
                   (JsString.or_else (BackendTrack.album raw) "Single")
                   (inject_Z (Qfloor (Js.or_zero (BackendTrack.duration raw) /! 1000)))
                   (JsString.or_else (BackendTrack.image raw)
                      ("https://img.youtube.com/vi/" ++ youtubeId_of raw
                       ++ "/hqdefault.jpg"))
                   (Some ("https://www.youtube.com/watch?v=" ++ youtubeId_of raw)%string))
              = youtubeId_of raw) by (now apply getVideoId_transformed).
  split; [exact E|]. split; [reflexivity|].
  split; [|split].
  - intros y Hy Hne. rewrite E. unfold youtubeId_of. rewrite Hy.
    destruct y; [congruence | reflexivity].
  - intros H. rewrite E. unfold youtubeId_of. destruct H as [-> | ->]; reflexivity.
  - intros raw' song' H' Hid. rewrite E, (getVideoId_transformed raw' song' H').
    injection H' as <-. simpl in Hid. now injection Hid.
Qed.

(** ** Moving through the queue *)

Lemma findIndex_found queue id i :
  findIndex queue id = Some i ->
  exists s, nth_error queue i = Some s /\ Song.id s = id.
Proof.
  revert i. induction queue as [|s queue IH]; simpl; [discriminate|].
  intros i. destruct (String.eqb (Song.id s) id) eqn:E.
  - intros [= <-]. exists s. split; [reflexivity | now apply String.eqb_eq].
  - destruct (findIndex queue id) as [j|]; simpl; [|discriminate].
    intros [= <-]. apply (IH j eq_refl).
Qed.

(** In a queue without a repeated id, the index of a song's id is the
    place of the song. *)
Lemma findIndex_place queue i s :
  NoDup (queue_ids queue) -> nth_error queue i = Some s ->
  findIndex queue (Song.id s) = Some i.
Proof.
  revert i. induction queue as [|s0 queue IH]; intros [|i] Hnd Hnth;
    simpl in *; try discriminate.
  - injection Hnth as ->. now rewrite String.eqb_refl.
  - apply NoDup_cons_iff in Hnd. destruct Hnd as [Hs0 Hnd].
    destruct (String.eqb (Song.id s0) (Song.id s)) eqn:E.
    + apply String.eqb_eq in E. exfalso. apply Hs0. rewrite E.
      apply in_map. eapply nth_error_In; eauto.
    + now rewrite (IH i Hnd Hnth).
Qed.

Lemma at_index_nat queue (i : nat) :
  at_index queue (Z.of_nat i) = nth_error queue i.
Proof.
  unfold at_index. destruct (Z.of_nat i <? 0)%Z eqn:E.
  - apply Z.ltb_lt in E. lia.
  - now rewrite Nat2Z.id.
Qed.




Lemma three_queued_ids : NoDup (queue_ids (PlayerState.queue three_queued)).
Proof.
  repeat constructor; simpl; intuition discriminate.
Qed.


(** ** Shuffle *)

Lemma draw_index (random : Js.num) (len : nat) :
  0 <= random < 1 -> (0 < len)%nat ->
  (0 <= Qfloor (random *! inject_Z (Z.of_nat len)) < Z.of_nat len)%Z.
Proof.
  intros [H0 H1] Hlen.
  assert (E : random *! inject_Z (Z.of_nat len) == random * inject_Z (Z.of_nat len))
    by apply mul_spec.
  rewrite E.
  assert (Hq : 0 < inject_Z (Z.of_nat len)) by (unfold Qlt; simpl; lia).
  split.
  - rewrite <- (Qfloor_Z 0). apply Qfloor_resp_le.
    apply Qmult_le_0_compat; lra.
  - assert (Hx : random * inject_Z (Z.of_nat len) < inject_Z (Z.of_nat len)).
    { rewrite <- (Qmult_1_l (inject_Z (Z.of_nat len))) at 2.
      apply Qmult_lt_compat_r; assumption. }
    pose proof (Qfloor_le (random * inject_Z (Z.of_nat len))) as Hf.
    rewrite Zlt_Qlt. lra.
Qed.

Lemma shuffle_index_range draws len currentIndex k :
  unit_draws draws -> (0 < len)%nat ->
  shuffle_index draws len currentIndex = Some k ->
  (0 <= k < Z.of_nat len)%Z /\
  ((1 < len)%nat -> k <> Z.of_nat currentIndex).
Proof.
  intros Hd Hlen. induction Hd as [|r draws Hr Hd IH]; simpl; [discriminate|].
  destruct (Nat.ltb 1 len && Z.eqb _ _) eqn:E; [exact IH|].
  intros [= <-]. split; [now apply draw_index|].
  intros H1 Hk. apply andb_false_iff in E. destruct E as [E | E].
  - apply Nat.ltb_ge in E. lia.
  - apply Z.eqb_neq in E. contradiction.
Qed.

Lemma shuffle_index_ends draws len currentIndex :
  Exists (fun r => Qfloor (r *! inject_Z (Z.of_nat len)) <> Z.of_nat currentIndex)
    draws ->
  shuffle_index draws len currentIndex <> None.
Proof.
  induction 1 as [r draws Hr | r draws _ IH]; simpl.
  - apply Z.eqb_neq in Hr. rewrite Hr, andb_false_r. discriminate.
  - destruct (Nat.ltb 1 len && Z.eqb _ _); [exact IH | discriminate].
Qed.

(** X18: with shuffle on, results of [Math.random()] in [0, 1) and a queue
    without a repeated id whose current song is in it, the track that
    [getNextTrack] returns is a song of the queue, and another song than
    the current one when the queue has more than one; the loop ends once a
    draw points at another index than the current one; and a queue of one
    song gives that song at the first draw. *)
Theorem getNextTrack_shuffled (draws : list Js.num) (state : PlayerState.t)
    (current : Song.t) (direction : Direction.t) :
  PlayerState.isShuffled state = true ->
  unit_draws draws ->
  NoDup (queue_ids (PlayerState.queue state)) ->
  PlayerState.currentSong state = Some current ->
  In current (PlayerState.queue state) ->
  let queue := PlayerState.queue state in
  (forall result, getNextTrack draws state direction = Some result ->
     exists track,
       result = Some track /\ In track queue /\
       ((1 < length queue)%nat -> Song.id track <> Song.id current)) /\
  (forall i, nth_error queue i = Some current ->
     Exists (fun r => Qfloor (r *! inject_Z (Z.of_nat (length queue)))
                      <> Z.of_nat i) draws ->
     getNextTrack draws state direction <> None) /\
  (draws <> [] -> (length queue <= 1)%nat ->
   getNextTrack draws state direction = Some (Some current)).
Proof.
  intros Hsh Hd Hnd Hcur Hin. cbv zeta.
  destruct (In_nth_error _ _ Hin) as [i Hi].
  pose proof (findIndex_place _ _ _ Hnd Hi) as Hfind.
  assert (Hlt : (i < length (PlayerState.queue state))%nat)
    by (apply nth_error_Some; congruence).
  assert (Hget : getNextTrack draws state direction =
                 option_map (at_index (PlayerState.queue state))
                   (shuffle_index draws (length (PlayerState.queue state)) i)).
  { unfold getNextTrack. cbv zeta.
    destruct (PlayerState.queue state) as [|s0 queue] eqn:Hq; [destruct Hin|].
    now rewrite Hcur, Hfind, Hsh. }
  rewrite Hget. repeat split.
  - intros result Hres.
    destruct (shuffle_index draws (length (PlayerState.queue state)) i)
      as [k|] eqn:Hk; [|discriminate].
    injection Hres as <-.
    assert (Hpos : (0 < length (PlayerState.queue state))%nat) by lia.
    destruct (shuffle_index_range _ _ _ _ Hd Hpos Hk) as [Hrange Hother].
    rewrite <- (Z2Nat.id k) by lia. rewrite at_index_nat.
    destruct (nth_error (PlayerState.queue state) (Z.to_nat k)) as [track|] eqn:Ht;
      [|apply nth_error_None in Ht; lia].
    exists track. split; [reflexivity|]. split; [eapply nth_error_In; eauto|].
    intros Hlen Hid. apply (Hother Hlen).
    pose proof (findIndex_place _ _ _ Hnd Ht) as Hfind'.
    rewrite Hid, Hfind in Hfind'. injection Hfind' as ->. lia.
  - intros j Hj Hex.
    pose proof (findIndex_place _ _ _ Hnd Hj) as Hfind'.
    rewrite Hfind in Hfind'. injection Hfind' as <-.
    pose proof (shuffle_index_ends _ _ _ Hex) as Hne.
    destruct (shuffle_index draws (length (PlayerState.queue state)) i);
      [discriminate | congruence].
  - intros Hne Hlen.
    destruct draws as [|r draws]; [congruence|].
    apply Forall_inv in Hd. simpl.
    replace (Nat.ltb 1 (length (PlayerState.queue state)))
      with false by (symmetry; apply Nat.ltb_ge; lia).
    simpl.
    assert (Hpos : (0 < length (PlayerState.queue state))%nat) by lia.
    pose proof (draw_index r (length (PlayerState.queue state)) Hd Hpos) as Hr.
    replace (Qfloor (r *! inject_Z (Z.of_nat (length (PlayerState.queue state)))))
      with (Z.of_nat i) by lia.
    rewrite at_index_nat. now rewrite Hi.
Qed.

Lemma getNextTrack_shuffled_witness :
  let queue := PlayerState.queue three_shuffled in
  (forall result,
     getNextTrack [0.5; 0.9] three_shuffled Direction.next = Some result ->
     exists track,
       result = Some track /\ In track queue /\
       ((1 < length queue)%nat -> Song.id track <> Song.id (library 0%nat))) /\
  (forall i, nth_error queue i = Some (library 0%nat) ->
     Exists (fun r => Qfloor (r *! inject_Z (Z.of_nat (length queue)))
                      <> Z.of_nat i) [0.5; 0.9] ->
     getNextTrack [0.5; 0.9] three_shuffled Direction.next <> None) /\
  ([0.5; 0.9] <> [] -> (length queue <= 1)%nat ->
   getNextTrack [0.5; 0.9] three_shuffled Direction.next
   = Some (Some (library 0%nat))).
Proof.
  apply (getNextTrack_shuffled [0.5; 0.9] three_shuffled (library 0%nat)
           Direction.next).
  - reflexivity.
  - repeat constructor; unfold Qle, Qlt; simpl; lia.
  - exact three_queued_ids.
  - reflexivity.
  - simpl. now left.
Defined.

(** ** Playing a song and queueing one *)

Lemma existsb_id_In (queue : list Song.t) id :
  existsb (fun s => String.eqb (Song.id s) id) queue = true <->
  In id (queue_ids queue).
Proof.
  unfold queue_ids. rewrite existsb_exists, in_map_iff.
  split; intros (s & H1 & H2); exists s.
  - apply String.eqb_eq in H2. tauto.
  - split; [assumption | now apply String.eqb_eq].
Qed.

(** X19: [playSong] makes the song the current one and leaves the queue
    with the song's id in it, appending the song only when no queued song
    has its id, so a queue without a repeated id stays one and the current
    song is found in it; [addToQueue] appends without looking, and repeats
    an id when given a song whose id is queued already. *)
Theorem playSong_keeps_the_queue_distinct (song : Song.t)
    (prev : PlayerState.t) :
  let played := playSong_update song prev in
  PlayerState.currentSong played = Some song /\
  In (Song.id song) (queue_ids (PlayerState.queue played)) /\
  findIndex (PlayerState.queue played) (Song.id song) <> None /\
  (In (Song.id song) (queue_ids (PlayerState.queue prev)) ->
     PlayerState.queue played = PlayerState.queue prev) /\
  (NoDup (queue_ids (PlayerState.queue prev)) ->
     NoDup (queue_ids (PlayerState.queue played))) /\
  (In (Song.id song) (queue_ids (PlayerState.queue prev)) ->
     ~ NoDup (queue_ids (PlayerState.queue (addToQueue_update song prev)))).
Proof.
  cbv zeta. unfold playSong_update, addToQueue_update. simpl.
  destruct (existsb _ (PlayerState.queue prev)) eqn:E.
  - apply existsb_id_In in E.
    assert (Hfind : findIndex (PlayerState.queue prev) (Song.id song) <> None).
    { clear -E. induction (PlayerState.queue prev) as [|s q IH]; simpl in *;
        [destruct E|].
      destruct (String.eqb (Song.id s) (Song.id song)) eqn:F; [discriminate|].
      destruct E as [E | E]; [apply String.eqb_neq in F; congruence|].
      specialize (IH E). destruct (findIndex q (Song.id song)); simpl; congruence. }
    repeat split; auto.
    intros _ Hnd. unfold queue_ids in Hnd. rewrite map_app in Hnd.
    apply NoDup_remove_2 in Hnd. apply Hnd. rewrite app_nil_r. exact E.
  - assert (Hnot : ~ In (Song.id song) (queue_ids (PlayerState.queue prev))).
    { intros H. apply existsb_id_In in H. congruence. }
    assert (Hin : In (Song.id song)
                    (queue_ids (PlayerState.queue prev ++ [song]))).
    { unfold queue_ids. rewrite map_app. apply in_or_app. right. now left. }
    repeat split; try tauto.
    + clear -Hin. induction (PlayerState.queue prev ++ [song])%list as [|s q IH];
        simpl in *; [destruct Hin|].
      destruct (String.eqb (Song.id s) (Song.id song)) eqn:F; [discriminate|].
      destruct Hin as [E | E]; [apply String.eqb_neq in F; congruence|].
      specialize (IH E). destruct (findIndex q (Song.id song)); simpl; congruence.
    + intros Hnd. unfold queue_ids. rewrite map_app. simpl.
      apply NoDup_app; repeat split; [exact Hnd | repeat constructor; intros [] |].
      intros x Hx [<- | []]. contradiction.
Qed.

(** ** The automatic queue *)

Lemma autoQueue_candidates_blank heap current queue searched :
  clean_title (Song.title current) = EmptyString ->
  autoQueue_candidates heap current queue searched = [].
Proof.
  intros Hblank. unfold autoQueue_candidates.
  induction searched as [|c l IH]; simpl; [reflexivity|].
  unfold isTitleTooSimilar at 1. cbv zeta. rewrite Hblank, includes_empty.
  rewrite orb_true_r. simpl. rewrite andb_false_r. exact IH.
Qed.

(** X20: every song that the automatic queue appends is a search result
    whose id is neither queued nor that of the current song and whose title
    is not too similar to the current one; what it appends is what
    [recommendNextSongs] returns for [count = 5], the fallback to the first
    three candidates never adding a song; it appends at most five songs
    when [discoveryOpenness] lies in [0, 1], and none when the title of the
    current song has no letter [a-z] or digit. *)
Theorem autoQueue_additions_are_new (heap : Heap) (this : Engine)
    (context : SessionContext) (searched : list objref) :
  let added := autoQueue_additions heap this context searched in
  let candidates :=
    autoQueue_candidates heap (currentSong context) (queue context) searched in
  (forall r, In r added ->
     In r searched /\
     ~ In (Song.id (heap r)) (queue_ids (queue context)) /\
     Song.id (heap r) <> Song.id (currentSong context) /\
     isTitleTooSimilar (Song.title (currentSong context))
       (Song.title (heap r)) = false) /\
  added = recommendNextSongs heap this candidates context 5 /\
  (0 <= discoveryOpenness (userProfile this) <= 1 -> (length added <= 5)%nat) /\
  (clean_title (Song.title (currentSong context)) = EmptyString -> added = []).
Proof.
  cbv zeta. unfold autoQueue_additions. cbv zeta.
  set (candidates := autoQueue_candidates heap (currentSong context)
                       (queue context) searched).
  set (recommendations := recommendNextSongs heap this candidates context 5).
  assert (Hadded : (if Nat.ltb 0 (length recommendations) then recommendations
                    else Js.slice_first 3 candidates) = recommendations).
  { destruct (Nat.ltb 0 (length recommendations)) eqn:E; [reflexivity|].
    apply Nat.ltb_ge in E.
    assert (Hnil : recommendations = [])
      by (destruct recommendations; [reflexivity | simpl in E; lia]).
    pose proof (proj1 (recommended_none heap this candidates context 5
                         ltac:(lia)) Hnil) as Hc.
    rewrite Hnil. now rewrite Hc. }
  rewrite Hadded. repeat split.
  - apply (recommended_are_candidates heap this candidates context 5) in H.
    apply filter_In in H. tauto.
  - apply (recommended_are_candidates heap this candidates context 5) in H.
    apply filter_In in H. destruct H as [_ H].
    apply andb_true_iff in H. destruct H as [H _].
    apply andb_true_iff in H. destruct H as [H _].
    apply negb_true_iff in H. intros Hin. apply existsb_id_In in Hin. congruence.
  - apply (recommended_are_candidates heap this candidates context 5) in H.
    apply filter_In in H. destruct H as [_ H].
    apply andb_true_iff in H. destruct H as [H _].
    apply andb_true_iff in H. destruct H as [_ H].
    apply negb_true_iff in H. now apply String.eqb_neq.
  - apply (recommended_are_candidates heap this candidates context 5) in H.
    apply filter_In in H. destruct H as [_ H].
    apply andb_true_iff in H. destruct H as [_ H].
    now apply negb_true_iff.
  - intros Hd. unfold recommendations. rewrite recommendNextSongs_picked, length_map.
    pose proof (results_length_le heap this context candidates 5 ltac:(lia) Hd).
    lia.
  - intros Hblank.
    unfold recommendations, candidates.
    rewrite (autoQueue_candidates_blank heap _ _ searched Hblank).
    now apply (recommended_none heap this [] context 5).
Qed.

(** ** The display of a time *)

Lemma Qfloor_unique (x : Q) (z : Z) :
  inject_Z z <= x -> x < inject_Z (z + 1) -> Qfloor x = z.
Proof.
  intros Hle Hlt.
  pose proof (Qfloor_le x) as H1. pose proof (Qlt_floor x) as H2.
  assert (A : (z < Qfloor x + 1)%Z) by (rewrite Zlt_Qlt; lra).
  assert (B : (Qfloor x < z + 1)%Z) by (rewrite Zlt_Qlt; lra).
  lia.
Qed.

(** The minutes and the seconds that [formatTime] computes, in terms of
    the whole seconds. *)
Lemma formatTime_parts (seconds : Q) :
  0 <= seconds ->
  Qfloor (seconds /! 60) = (Qfloor seconds / 60)%Z /\
  Qfloor (Number_rem seconds 60) = (Qfloor seconds mod 60)%Z.
Proof.
  intros Hs. set (n := Qfloor seconds).
  pose proof (Qfloor_le seconds) as H1. pose proof (Qlt_floor seconds) as H2.
  fold n in H1, H2.
  pose proof (Z.div_mod n 60 ltac:(lia)) as Hdm.
  pose proof (Z.mod_pos_bound n 60 ltac:(lia)) as Hm.
  assert (Hn : (0 <= n)%Z).
  { unfold n. rewrite <- (Qfloor_Z 0). now apply Qfloor_resp_le. }
  assert (Hq : (0 <= n / 60)%Z) by (apply Z.div_pos; lia).
  set (q := (n / 60)%Z) in *. set (r := (n mod 60)%Z) in *.
  assert (En : inject_Z n == 60 * inject_Z q + inject_Z r).
  { rewrite Hdm. rewrite inject_Z_plus, inject_Z_mult. reflexivity. }
  assert (E1 : inject_Z (n + 1) == inject_Z n + 1)
    by (rewrite inject_Z_plus; reflexivity).
  assert (Hr0 : 0 <= inject_Z r) by (unfold Qle; simpl; lia).
  assert (Hr1 : inject_Z r <= 59).
  { change 59 with (inject_Z 59). rewrite <- Zle_Qle. lia. }
  assert (Hdiv : Qfloor (seconds /! 60) = q).
  { apply Qfloor_unique; rewrite div_spec.
    - apply Qle_shift_div_l; lra.
    - apply Qlt_shift_div_r; [lra|]. rewrite inject_Z_plus.
      change (inject_Z 1) with 1. lra. }
  split; [exact Hdiv|].
  unfold Number_rem, Math_trunc.
  assert (Hpos : Qle_bool 0 (seconds /! 60) = true).
  { apply Qle_bool_iff. rewrite div_spec. apply Qle_shift_div_l; lra. }
  rewrite Hpos, Hdiv.
  apply Qfloor_unique; rewrite sub_spec, mul_spec.
  - lra.
  - rewrite inject_Z_plus. change (inject_Z 1) with 1. lra.
Qed.

Lemma two_digits_padded (r : Z) :
  (0 <= r < 60)%Z -> padStart 2 "0" (Number_toString r) = two_digits r.
Proof.
  intros Hr.
  assert (H : forallb
                (fun n => String.eqb (padStart 2 "0" (Number_toString (Z.of_nat n)))
                                     (two_digits (Z.of_nat n)))
                (seq 0 60) = true) by (vm_compute; reflexivity).
  rewrite forallb_forall in H.
  specialize (H (Z.to_nat r)). rewrite Z2Nat.id in H by lia.
  apply String.eqb_eq, H, in_seq. lia.
Qed.

(** X21: for a time that is not negative [formatTime] shows the whole
    seconds [n] of it as the minutes [n / 60], a colon and the seconds
    [n mod 60] in exactly two digits. *)
Theorem formatTime_minutes_and_seconds (seconds : Js.num) :
  0 <= seconds ->
  let n := Qfloor seconds in
  formatTime seconds =
    (Number_toString (n / 60) ++ ":" ++ two_digits (n mod 60))%string /\
  (0 <= n mod 60 < 60)%Z /\
  (60 * (n / 60) + n mod 60 = n)%Z.
Proof.
  intros Hs. cbv zeta.
  pose proof (Z.mod_pos_bound (Qfloor seconds) 60 ltac:(lia)) as Hm.
  pose proof (Z.div_mod (Qfloor seconds) 60 ltac:(lia)) as Hdm.
  split; [|split; [exact Hm | lia]].
  unfold formatTime. destruct (Js.truthy seconds) eqn:E; simpl.
  - destruct (formatTime_parts seconds Hs) as [-> ->].
    now rewrite two_digits_padded.
  - unfold Js.truthy in E. apply negb_false_iff, Qeq_bool_iff in E.
    assert (En : Qfloor seconds = 0%Z).
    { rewrite E. apply (Qfloor_Z 0). }
    rewrite En. reflexivity.
Qed.

Lemma formatTime_minutes_and_seconds_witness :
  let n := Qfloor 125.5 in
  formatTime 125.5 =
    (Number_toString (n / 60) ++ ":" ++ two_digits (n mod 60))%string /\
  (0 <= n mod 60 < 60)%Z /\
  (60 * (n / 60) + n mod 60 = n)%Z.
Proof.
  apply (formatTime_minutes_and_seconds 125.5).
  unfold Qle. simpl. lia.
Defined.

(** ** The events of the player *)

Lemma record_artist_score now event this :
  Js.Map_get (artistPreferences (userProfile (recordListeningEvent now event this)))
    (ListeningEvent.artist event) =
  Some (artist_score_after event
          (Js.or_zero (Js.Map_get (artistPreferences (userProfile this))
                         (ListeningEvent.artist event)))).
Proof. rewrite record_artistPreferences. apply Map_get_set_same. Qed.

(** X22: with a current song, a time played that is not negative and a
    positive duration, [nextSong] records a skip exactly when less than
    70% of the song has been played, and the completion effect never
    records a full listen in a state in which [nextSong] records a skip.
    The skip lowers the artist's score ([0] when there was none) by 2 when
    the time played is above 0 and below 30% of the duration, and by 0.5
    otherwise, also at time 0; the score does not go below 0. *)
Theorem nextSong_skip_penalty (timestamp now : Z) (state : PlayerState.t)
    (current : Song.t) (this : Engine) :
  PlayerState.currentSong state = Some current ->
  0 <= PlayerState.currentTime state ->
  0 < PlayerState.duration state ->
  let played := PlayerState.currentTime state in
  let total := PlayerState.duration state in
  let score :=
    Js.or_zero (Js.Map_get (artistPreferences (userProfile this))
                  (Song.artist current)) in
  (nextSong_event timestamp state <> None <-> played < total * 0.7) /\
  (nextSong_event timestamp state <> None ->
   completion_event timestamp state = None) /\
  (forall event, nextSong_event timestamp state = Some event ->
     ListeningEvent.action event = skip /\
     ListeningEvent.songId event = Song.id current /\
     exists after,
       Js.Map_get
         (artistPreferences (userProfile (recordListeningEvent now event this)))
         (Song.artist current) = Some after /\
       0 <= after /\
       (0 < played -> played < total * 0.3 -> 2 <= score -> after == score - 2) /\
       (played == 0 \/ total * 0.3 <= played -> 0.5 <= score ->
          after == score - 0.5)).
Proof.
  intros Hcur Ht Hd. cbv zeta.
  set (played := PlayerState.currentTime state) in *.
  set (total := PlayerState.duration state) in *.
  assert (Hskip : Js.ltb played (total *! 0.7) = true <-> played < total * 0.7).
  { rewrite ltb_true. now rewrite mul_spec. }
  unfold nextSong_event, completion_event. rewrite Hcur.
  fold played total.
  destruct (Js.ltb played (total *! 0.7)) eqn:E.
  - pose proof (proj1 Hskip eq_refl) as E'. clear Hskip.
    repeat split; try tauto; try discriminate.
    + intros _.
      destruct (negb (PlayerState.isPlaying state) && Js.gtb played 0);
        [|reflexivity].
      assert (Hty : Js.truthy total = true) by (apply truthy_true; lra).
      rewrite Hty.
      replace (Js.gtb (played /! total) 0.9) with false; [reflexivity|].
      symmetry. apply gtb_false. rewrite div_spec.
      apply Qle_shift_div_r; lra.
    + now injection H as <-.
    + now injection H as <-.
    + injection H as <-. rewrite record_artist_score.
      eexists. split; [reflexivity|].
      unfold artist_score_after. simpl ListeningEvent.action.
      split; [apply Math_max_lower|].
      unfold completionRatio. simpl.
      split.
      * intros Hpos Hearly Hscore.
        assert (Hty : Js.truthy played && Js.truthy total = true).
        { apply andb_true_iff. split; apply truthy_true; lra. }
        rewrite Hty.
        assert (Hr : Js.ltb (played /! total) 0.3 = true).
        { apply ltb_true. rewrite div_spec. apply Qlt_shift_div_r; lra. }
        rewrite Hr.
        destruct (Math_max_cases 0 (Js.or_zero
                    (Js.Map_get (artistPreferences (userProfile this))
                       (Song.artist current)) +! -2)) as [[Hc Em] | [Hc Em]];
          rewrite Em; clear Em; revert Hc; to_Q; intros; lra.
      * intros Hlate Hscore.
        match goal with
        | |- context [Js.Math_max 0 (_ +! ?p)] => assert (Hp : p = -0.5)
        end.
        { destruct (Js.truthy played) eqn:Hty; simpl.
          - assert (Hty2 : Js.truthy total = true) by (apply truthy_true; lra).
            rewrite Hty2.
            apply truthy_true in Hty.
            destruct Hlate as [Hz | Hlate]; [contradiction|].
            replace (Js.ltb (played /! total) 0.3) with false; [reflexivity|].
            symmetry. apply ltb_false. rewrite div_spec.
            apply Qle_shift_div_l; lra.
          - reflexivity. }
        rewrite Hp.
        destruct (Math_max_cases 0 (Js.or_zero
                    (Js.Map_get (artistPreferences (userProfile this))
                       (Song.artist current)) +! -0.5)) as [[Hc Em] | [Hc Em]];
          rewrite Em; clear Em; revert Hc; to_Q; intros; lra.
  - assert (Hno : ~ played < total * 0.7).
    { intros H. apply Hskip in H. discriminate. }
    repeat split; try tauto; try discriminate; try congruence.
Qed.

Lemma nextSong_skip_penalty_witness :
  let played := PlayerState.currentTime early_in_song in
  let total := PlayerState.duration early_in_song in
  let score :=
    Js.or_zero (Js.Map_get (artistPreferences (userProfile after_one_like))
                  (Song.artist (library 0%nat))) in
  (nextSong_event 7 early_in_song <> None <-> played < total * 0.7) /\
  (nextSong_event 7 early_in_song <> None ->
   completion_event 7 early_in_song = None) /\
  (forall event, nextSong_event 7 early_in_song = Some event ->
     ListeningEvent.action event = skip /\
     ListeningEvent.songId event = Song.id (library 0%nat) /\
     exists after,
       Js.Map_get
         (artistPreferences
            (userProfile (recordListeningEvent 8 event after_one_like)))
         (Song.artist (library 0%nat)) = Some after /\
       0 <= after /\
       (0 < played -> played < total * 0.3 -> 2 <= score -> after == score - 2) /\
       (played == 0 \/ total * 0.3 <= played -> 0.5 <= score ->
          after == score - 0.5)).
Proof.
  apply (nextSong_skip_penalty 7 8 early_in_song (library 0%nat) after_one_like).
  - reflexivity.
  - unfold Qle. simpl. lia.
  - unfold Qlt. simpl. lia.
Defined.

